(** * CreatiVision Controller Interface: a shallow embedding of [src/main.c]

    The firmware translates PS/2 scan codes and two Atari joysticks into
    ON/OFF commands for an MT8816 crosspoint switch array.  This file embeds
    the four parts of [main.c] that carry the logic

    - [MT8816_Switch]            the switch-matrix driver and its X remap,
    - [PS2_Interrupt] / [get_PS2_ScanCode]
                                 the serial decoder and its ring buffer,
    - [process_PS2_ScanCode]     the scan-code interpreter,
    - [process_Joystick_Left] / [process_Joystick_Right]
                                 the joystick samplers,

    and proves properties of them.

    Conventions.  A [uint8_t] is a [Z] in [0, 256); every C operation that
    can leave that range is followed by [u8].  A C truth value is a [Z]
    tested against [0].  The [static] locals and the globals of the C file
    are fields of explicit state records threaded through the functions.
    The buffer array is a [list Z]; an access outside the list has no
    result ([None]), so that a definition returning [Some] has performed
    only in-bounds accesses.  A call of [MT8816_Switch] made by the
    interpreter or a sampler is recorded as an event [(switchState,
    switchAddress)] in the order it is issued. *)

From Stdlib Require Import ZArith List Bool Lia Permutation.
From stdpp Require Import base list.
Import ListNotations.
Local Open Scope Z_scope.

(** ** Machine integers *)

(** Truncation to [uint8_t]. *)
Definition u8 (z : Z) : Z := z mod 256.

(** [x++] / [++x] on a [uint8_t]. *)
Definition incr8 (z : Z) : Z := u8 (z + 1).

(** C truth of an integer. *)
Definition truthy (z : Z) : bool := negb (z =? 0).

(** ** Switch addresses ([main.c], lines 200-476) *)

Definition NO_SWITCH_ACTION : Z := 0x80.

Definition PIA_PA0 : Z := 0x00.
Definition PIA_PA1 : Z := 0x10.
Definition PIA_PA2 : Z := 0x28.
Definition PIA_PA3 : Z := 0x38.

Definition PIA_PB0 : Z := 0x00.
Definition PIA_PB1 : Z := 0x01.
Definition PIA_PB2 : Z := 0x02.
Definition PIA_PB3 : Z := 0x03.
Definition PIA_PB4 : Z := 0x04.
Definition PIA_PB5 : Z := 0x05.
Definition PIA_PB6 : Z := 0x06.
Definition PIA_PB7 : Z := 0x07.

(** Left controller keyboard. *)
Definition Switch_1_a := Z.lor PIA_PA0 PIA_PB3.
Definition Switch_1_b := Z.lor PIA_PA0 PIA_PB2.
Definition Switch_2_a := Z.lor PIA_PA1 PIA_PB5.
Definition Switch_2_b := Z.lor PIA_PA1 PIA_PB4.
Definition Switch_3_a := Z.lor PIA_PA1 PIA_PB5.
Definition Switch_3_b := Z.lor PIA_PA1 PIA_PB6.
Definition Switch_4_a := Z.lor PIA_PA1 PIA_PB5.
Definition Switch_4_b := Z.lor PIA_PA1 PIA_PB3.
Definition Switch_5_a := Z.lor PIA_PA1 PIA_PB6.
Definition Switch_5_b := Z.lor PIA_PA1 PIA_PB3.
Definition Switch_6_a := Z.lor PIA_PA1 PIA_PB6.
Definition Switch_6_b := Z.lor PIA_PA1 PIA_PB4.
Definition Switch_CNTL := Z.lor PIA_PA0 PIA_PB7.
Definition Switch_Q_a := Z.lor PIA_PA1 PIA_PB4.
Definition Switch_Q_b := Z.lor PIA_PA1 PIA_PB3.
Definition Switch_W_a := Z.lor PIA_PA1 PIA_PB3.
Definition Switch_W_b := Z.lor PIA_PA1 PIA_PB2.
Definition Switch_E_a := Z.lor PIA_PA1 PIA_PB4.
Definition Switch_E_b := Z.lor PIA_PA1 PIA_PB2.
Definition Switch_R_a := Z.lor PIA_PA1 PIA_PB5.
Definition Switch_R_b := Z.lor PIA_PA1 PIA_PB2.
Definition Switch_T_a := Z.lor PIA_PA1 PIA_PB6.
Definition Switch_T_b := Z.lor PIA_PA1 PIA_PB2.
Definition Switch_LEFT_a := Z.lor PIA_PA1 PIA_PB3.
Definition Switch_LEFT_b := Z.lor PIA_PA1 PIA_PB0.
Definition Switch_A_a := Z.lor PIA_PA1 PIA_PB4.
Definition Switch_A_b := Z.lor PIA_PA1 PIA_PB0.
Definition Switch_S_a := Z.lor PIA_PA1 PIA_PB5.
Definition Switch_S_b := Z.lor PIA_PA1 PIA_PB0.
Definition Switch_D_a := Z.lor PIA_PA1 PIA_PB6.
Definition Switch_D_b := Z.lor PIA_PA1 PIA_PB0.
Definition Switch_F_a := Z.lor PIA_PA1 PIA_PB1.
Definition Switch_F_b := Z.lor PIA_PA1 PIA_PB0.
Definition Switch_G_a := Z.lor PIA_PA1 PIA_PB2.
Definition Switch_G_b := Z.lor PIA_PA1 PIA_PB0.
Definition Switch_SHIFT := Z.lor PIA_PA1 PIA_PB7.
Definition Switch_Z_a := Z.lor PIA_PA1 PIA_PB3.
Definition Switch_Z_b := Z.lor PIA_PA1 PIA_PB1.
Definition Switch_X_a := Z.lor PIA_PA1 PIA_PB4.
Definition Switch_X_b := Z.lor PIA_PA1 PIA_PB1.
Definition Switch_C_a := Z.lor PIA_PA1 PIA_PB5.
Definition Switch_C_b := Z.lor PIA_PA1 PIA_PB1.
Definition Switch_V_a := Z.lor PIA_PA1 PIA_PB6.
Definition Switch_V_b := Z.lor PIA_PA1 PIA_PB1.
Definition Switch_B_a := Z.lor PIA_PA1 PIA_PB2.
Definition Switch_B_b := Z.lor PIA_PA1 PIA_PB1.

(** Right controller keyboard. *)
Definition Switch_7_a := Z.lor PIA_PA3 PIA_PB1.
Definition Switch_7_b := Z.lor PIA_PA3 PIA_PB2.
Definition Switch_8_a := Z.lor PIA_PA3 PIA_PB6.
Definition Switch_8_b := Z.lor PIA_PA3 PIA_PB1.
Definition Switch_9_a := Z.lor PIA_PA3 PIA_PB5.
Definition Switch_9_b := Z.lor PIA_PA3 PIA_PB1.
Definition Switch_0_a := Z.lor PIA_PA3 PIA_PB4.
Definition Switch_0_b := Z.lor PIA_PA3 PIA_PB1.
Definition Switch_COLON_a := Z.lor PIA_PA3 PIA_PB3.
Definition Switch_COLON_b := Z.lor PIA_PA3 PIA_PB1.
Definition Switch_MINUS := Z.lor PIA_PA3 PIA_PB7.
Definition Switch_Y_a := Z.lor PIA_PA3 PIA_PB0.
Definition Switch_Y_b := Z.lor PIA_PA3 PIA_PB2.
Definition Switch_U_a := Z.lor PIA_PA3 PIA_PB0.
Definition Switch_U_b := Z.lor PIA_PA3 PIA_PB1.
Definition Switch_I_a := Z.lor PIA_PA3 PIA_PB6.
Definition Switch_I_b := Z.lor PIA_PA3 PIA_PB0.
Definition Switch_O_a := Z.lor PIA_PA3 PIA_PB5.
Definition Switch_O_b := Z.lor PIA_PA3 PIA_PB0.
Definition Switch_P_a := Z.lor PIA_PA3 PIA_PB4.
Definition Switch_P_b := Z.lor PIA_PA3 PIA_PB0.
Definition Switch_RETN_a := Z.lor PIA_PA3 PIA_PB3.
Definition Switch_RETN_b := Z.lor PIA_PA3 PIA_PB0.
Definition Switch_H_a := Z.lor PIA_PA3 PIA_PB6.
Definition Switch_H_b := Z.lor PIA_PA3 PIA_PB2.
Definition Switch_J_a := Z.lor PIA_PA3 PIA_PB5.
Definition Switch_J_b := Z.lor PIA_PA3 PIA_PB2.
Definition Switch_K_a := Z.lor PIA_PA3 PIA_PB4.
Definition Switch_K_b := Z.lor PIA_PA3 PIA_PB2.
Definition Switch_L_a := Z.lor PIA_PA3 PIA_PB3.
Definition Switch_L_b := Z.lor PIA_PA3 PIA_PB2.
Definition Switch_SEMICOLON_a := Z.lor PIA_PA3 PIA_PB4.
Definition Switch_SEMICOLON_b := Z.lor PIA_PA3 PIA_PB3.
Definition Switch_N_a := Z.lor PIA_PA3 PIA_PB6.
Definition Switch_N_b := Z.lor PIA_PA3 PIA_PB4.
Definition Switch_M_a := Z.lor PIA_PA3 PIA_PB6.
Definition Switch_M_b := Z.lor PIA_PA3 PIA_PB3.
Definition Switch_COMMA_a := Z.lor PIA_PA3 PIA_PB5.
Definition Switch_COMMA_b := Z.lor PIA_PA3 PIA_PB3.
Definition Switch_PERIOD_a := Z.lor PIA_PA3 PIA_PB6.
Definition Switch_PERIOD_b := Z.lor PIA_PA3 PIA_PB5.
Definition Switch_FORWARDSLASH_a := Z.lor PIA_PA3 PIA_PB5.
Definition Switch_FORWARDSLASH_b := Z.lor PIA_PA3 PIA_PB4.
Definition Switch_RIGHT := Z.lor PIA_PA2 PIA_PB7.
Definition Switch_SPACE_a := Z.lor PIA_PA2 PIA_PB3.
Definition Switch_SPACE_b := Z.lor PIA_PA2 PIA_PB2.

(** Left controller joystick. *)
Definition Switch_JoyL_Up := Z.lor PIA_PA0 PIA_PB3.
Definition Switch_JoyL_Down := Z.lor PIA_PA0 PIA_PB1.
Definition Switch_JoyL_Left := Z.lor PIA_PA0 PIA_PB5.
Definition Switch_JoyL_Right := Z.lor PIA_PA0 PIA_PB2.
Definition Switch_JoyL_UpLeft_Extra := Z.lor PIA_PA0 PIA_PB4.
Definition Switch_JoyL_UpRightDownLeft_Extra := Z.lor PIA_PA0 PIA_PB6.
Definition Switch_JoyL_DownRight_Extra := Z.lor PIA_PA0 PIA_PB0.
Definition Switch_JoyL_Button1 := Z.lor PIA_PA0 PIA_PB7.
Definition Switch_JoyL_Button2 := Z.lor PIA_PA1 PIA_PB7.

(** Right controller joystick. *)
Definition Switch_JoyR_Up := Z.lor PIA_PA2 PIA_PB3.
Definition Switch_JoyR_Down := Z.lor PIA_PA2 PIA_PB1.
Definition Switch_JoyR_Left := Z.lor PIA_PA2 PIA_PB5.
Definition Switch_JoyR_Right := Z.lor PIA_PA2 PIA_PB2.
Definition Switch_JoyR_UpLeft_Extra := Z.lor PIA_PA2 PIA_PB4.
Definition Switch_JoyR_UpRightDownLeft_Extra := Z.lor PIA_PA2 PIA_PB6.
Definition Switch_JoyR_DownRight_Extra := Z.lor PIA_PA2 PIA_PB0.
Definition Switch_JoyR_Button1 := Z.lor PIA_PA2 PIA_PB7.
Definition Switch_JoyR_Button2 := Z.lor PIA_PA3 PIA_PB7.

(** ** The switch-matrix driver ([main.c], lines 486-510) *)

(** The [switch (switchAddressX)] statement of [MT8816_Switch]: the GNU case
    ranges [6 ... 11] and [12 ... 13], no default. *)
Definition switchAddressX_remap (switchAddressX : Z) : Z :=
  if (6 <=? switchAddressX) && (switchAddressX <=? 11)
  then u8 (switchAddressX + 2)
  else if (12 <=? switchAddressX) && (switchAddressX <=? 13)
  then u8 (switchAddressX - 6)
  else switchAddressX.

Section Driver.
(** [MT_Strobe_bm = PIN6_bm] and [MT_Data_bm = PIN7_bm]; the pin masks come
    from the device header, which is not part of the repository, and are
    left abstract. *)
Variables MT_Strobe_bm MT_Data_bm : Z.

(** [PORTA.OUTSET = m] and [PORTA.OUTCLR = m] acting on the output
    register. *)
Definition OUTSET (m out : Z) : Z := u8 (Z.lor out m).
Definition OUTCLR (m out : Z) : Z := Z.land out (Z.lxor (u8 m) 0xFF).

(** [MT8816_Switch] as the sequence of values taken by [PORTA.OUT]:
    address, address with the data line, the same with the strobe, zero. *)
Definition MT8816_Switch (switchState : bool) (switchAddress : Z) : list Z :=
  let switchAddressX := Z.land switchAddress 0x0F in
  let switchAddressY := Z.land switchAddress 0x30 in
  let switchAddressX := switchAddressX_remap switchAddressX in
  let out1 := Z.lor switchAddressX switchAddressY in
  let out2 := if switchState then OUTSET MT_Data_bm out1
              else OUTCLR MT_Data_bm out1 in
  let out3 := OUTSET MT_Strobe_bm out2 in
  [out1; out2; out3; 0].
End Driver.

(** ** The scan-code ring buffer ([main.c], lines 77-80, 856-871, 1339-1347) *)

Definition PS2_ScanCodeBuffer_Size : Z := 254.

(** The three globals shared by the interrupt handler and the consumer. *)
Record ring : Type := mkRing {
  PS2_ScanCodeBuffer : list Z;
  PS2_ScanCodeBuffer_Start : Z;
  PS2_ScanCodeBuffer_End : Z
}.

(** [a[i]] as an rvalue and [a[i] = v]: no result outside the array. *)
Definition array_read (a : list Z) (i : Z) : option Z :=
  if 0 <=? i then a !! Z.to_nat i else None.

Definition array_write (a : list Z) (i v : Z) : option (list Z) :=
  if (0 <=? i) && (i <? Z.of_nat (length a))
  then Some (<[Z.to_nat i := v]> a)
  else None.

(** The idiom [if (++idx == PS2_ScanCodeBuffer_Size) idx = 0;]. *)
Definition advance (idx : Z) : Z :=
  let idx := incr8 idx in
  if idx =? PS2_ScanCodeBuffer_Size then 0 else idx.

(** [get_PS2_ScanCode]: the returned byte and the globals afterwards. *)
Definition get_PS2_ScanCode (r : ring) : option (Z * ring) :=
  if PS2_ScanCodeBuffer_Start r =? PS2_ScanCodeBuffer_End r
  then Some (0, r)
  else
    match array_read (PS2_ScanCodeBuffer r) (PS2_ScanCodeBuffer_Start r) with
    | None => None
    | Some value =>
        Some (value,
              mkRing (PS2_ScanCodeBuffer r)
                     (advance (PS2_ScanCodeBuffer_Start r))
                     (PS2_ScanCodeBuffer_End r))
    end.

(** The body of [if ((parityCount % 2) && !(startBit) && (stopBit))] in
    [PS2_Interrupt] (lines 1339-1347): store, advance [End], and when [End]
    meets [Start] advance [Start] too.  The [&&] of the C text evaluates
    [++PS2_ScanCodeBuffer_Start] only when the two indices are equal. *)
Definition PS2_ScanCodeBuffer_add (data : Z) (r : ring) : option ring :=
  match array_write (PS2_ScanCodeBuffer r) (PS2_ScanCodeBuffer_End r) data with
  | None => None
  | Some buf =>
      let End := advance (PS2_ScanCodeBuffer_End r) in
      let Start :=
        if End =? PS2_ScanCodeBuffer_Start r
        then advance (PS2_ScanCodeBuffer_Start r)
        else PS2_ScanCodeBuffer_Start r in
      Some (mkRing buf Start End)
  end.

(** ** The serial decoder ([main.c], lines 1295-1352) *)

(** The [static] locals of [PS2_Interrupt]. *)
Record ps2_frame : Type := mkFrame {
  startBit : Z;
  data : Z;
  parityCount : Z;
  stopBit : Z;
  bitCount : Z
}.

Section Decoder.
(** [PS2_Data_bm = PIN1_bm], a pin mask of the device header. *)
Variable PS2_Data_bm : Z.

(** One falling clock edge, with [PORTF.IN] as read on that edge. *)
Definition PS2_Interrupt (PORTF_IN : Z) (s : ps2_frame * ring)
  : option (ps2_frame * ring) :=
  let '(f, r) := s in
  let thisBit := u8 (Z.land PORTF_IN PS2_Data_bm) in
  let bitCount := incr8 (bitCount f) in
  let f :=
    if bitCount =? 1 then
      mkFrame thisBit (data f) (parityCount f) (stopBit f) bitCount
    else if (2 <=? bitCount) && (bitCount <=? 9) then
      let data := Z.shiftr (data f) 1 in
      if truthy thisBit
      then mkFrame (startBit f) (u8 (Z.lor data 0x80))
                   (incr8 (parityCount f)) (stopBit f) bitCount
      else mkFrame (startBit f) (Z.land data 0x7f)
                   (parityCount f) (stopBit f) bitCount
    else if bitCount =? 10 then
      if truthy thisBit
      then mkFrame (startBit f) (data f)
                   (incr8 (parityCount f)) (stopBit f) bitCount
      else mkFrame (startBit f) (data f) (parityCount f) (stopBit f) bitCount
    else if bitCount =? 11 then
      mkFrame (startBit f) (data f) (parityCount f) thisBit bitCount
    else
      mkFrame (startBit f) (data f) (parityCount f) (stopBit f) bitCount in
  if 10 <? bitCount then
    let r' :=
      if truthy (parityCount f mod 2)
         && negb (truthy (startBit f)) && truthy (stopBit f)
      then PS2_ScanCodeBuffer_add (data f) r
      else Some r in
    match r' with
    | None => None
    | Some r' =>
        Some (mkFrame (startBit f) (data f) 0 (stopBit f) 0, r')
    end
  else Some (f, r).

(** A run of clock edges, one port sample per edge. *)
Fixpoint PS2_Interrupts (samples : list Z) (s : ps2_frame * ring)
  : option (ps2_frame * ring) :=
  match samples with
  | [] => Some s
  | x :: samples =>
      match PS2_Interrupt x s with
      | None => None
      | Some s => PS2_Interrupts samples s
      end
  end.

(** The line level the handler observes in a sample. *)
Definition observed (PORTF_IN : Z) : bool :=
  truthy (u8 (Z.land PORTF_IN PS2_Data_bm)).
End Decoder.

(** *** Frames, as the keyboard sends them *)

(** Number of ones in a list of observed levels. *)
Definition popcount (bits : list bool) : nat := length (filter (eq true) bits).

(** Value of a list of levels read least-significant-first. *)
Fixpoint lsb_value (bits : list bool) : Z :=
  match bits with
  | [] => 0
  | b :: bits => Z.b2z b + 2 * lsb_value bits
  end.

(** An 11-bit frame is well framed when the first level is 0, the last is 1
    and the nine levels in between hold an odd number of ones. *)
Definition frame_valid (bits : list bool) : bool :=
  match bits with
  | start :: rest =>
      negb start && Nat.odd (popcount (take 9 rest))
      && match drop 9 rest with stop :: _ => stop | [] => false end
  | [] => false
  end.

(** The byte carried by a frame: levels 2 to 9. *)
Definition frame_byte (bits : list bool) : Z := lsb_value (take 8 (drop 1 bits)).

(** The eight data levels of a byte, least significant first. *)
Definition byte_bits (b : Z) : list bool :=
  map (fun i => Z.testbit b (Z.of_nat i)) (seq 0 8).

(** The frame a keyboard sends for [b]: start 0, data, odd parity, stop 1,
    as port samples; [lo] and [hi] are the port values read when the data
    line is low and high. *)
Definition ps2_encode (lo hi : Z) (b : Z) : list Z :=
  let level (x : bool) := if x then hi else lo in
  [lo] ++ map level (byte_bits b)
       ++ [level (Nat.even (popcount (byte_bits b)))] ++ [hi].

(** *** The buffer as a queue *)

(** The unread bytes, oldest first: the cells from [Start] up to [End],
    cyclically. *)
Definition ring_count (r : ring) : Z :=
  (PS2_ScanCodeBuffer_End r - PS2_ScanCodeBuffer_Start r)
    mod PS2_ScanCodeBuffer_Size.

Definition ring_cell (r : ring) (k : nat) : Z :=
  default 0
    (PS2_ScanCodeBuffer r
       !! Z.to_nat ((PS2_ScanCodeBuffer_Start r + Z.of_nat k)
                      mod PS2_ScanCodeBuffer_Size)).

Definition ring_contents (r : ring) : list Z :=
  map (ring_cell r) (seq 0 (Z.to_nat (ring_count r))).

(** Both indices inside the array, the array of its declared size. *)
Definition ring_inv (r : ring) : Prop :=
  length (PS2_ScanCodeBuffer r) = Z.to_nat PS2_ScanCodeBuffer_Size
  /\ 0 <= PS2_ScanCodeBuffer_Start r < PS2_ScanCodeBuffer_Size
  /\ 0 <= PS2_ScanCodeBuffer_End r < PS2_ScanCodeBuffer_Size.

(** The buffer at reset: the array zeroed, both indices 0. *)
Definition ring_init : ring :=
  mkRing (replicate (Z.to_nat PS2_ScanCodeBuffer_Size) 0) 0 0.

(** Successive pushes by the handler, successive pops by the consumer. *)
Fixpoint adds (bytes : list Z) (r : ring) : option ring :=
  match bytes with
  | [] => Some r
  | b :: bytes =>
      match PS2_ScanCodeBuffer_add b r with
      | None => None
      | Some r => adds bytes r
      end
  end.

Fixpoint gets (n : nat) (r : ring) : option (list Z * ring) :=
  match n with
  | O => Some ([], r)
  | S n =>
      match get_PS2_ScanCode r with
      | None => None
      | Some (v, r) =>
          match gets n r with
          | None => None
          | Some (vs, r) => Some (v :: vs, r)
          end
      end
  end.

(** ** The scan-code interpreter ([main.c], lines 877-1289) *)

(** One call [MT8816_Switch(switchState, switchAddress)]. *)
Definition call : Type := bool * Z.

(** The [static] locals of [process_PS2_ScanCode]. *)
Record key_flags : Type := mkFlags {
  key_release : Z;
  extended : Z
}.

(** The [switch (scanCode)] statement: the flags and the two switch values
    when it is left.  Both switch values enter it as [NO_SWITCH_ACTION]. *)
Definition scanCode_switch (scanCode : Z) (st : key_flags)
  : key_flags * Z * Z :=
  let none := (st, NO_SWITCH_ACTION, NO_SWITCH_ACTION) in
  let one (a : Z) := (st, a, NO_SWITCH_ACTION) in
  let two (a b : Z) := (st, a, b) in
  match scanCode with
  | 0xF0 => (mkFlags 1 (extended st), NO_SWITCH_ACTION, NO_SWITCH_ACTION)
  | 0xE0 | 0xE1 =>
      (mkFlags (key_release st) 1, NO_SWITCH_ACTION, NO_SWITCH_ACTION)
  (* left controller keyboard *)
  | 0x16 => two Switch_1_a Switch_1_b
  | 0x69 => if extended st =? 0 then two Switch_1_a Switch_1_b else none
  | 0x1E => two Switch_2_a Switch_2_b
  | 0x72 => if extended st =? 0 then two Switch_2_a Switch_2_b else none
  | 0x26 => two Switch_3_a Switch_3_b
  | 0x7A => if extended st =? 0 then two Switch_3_a Switch_3_b else none
  | 0x25 => two Switch_4_a Switch_4_b
  | 0x2E => two Switch_5_a Switch_5_b
  | 0x73 => two Switch_5_a Switch_5_b
  | 0x36 => two Switch_6_a Switch_6_b
  | 0x15 => two Switch_Q_a Switch_Q_b
  | 0x1D => two Switch_W_a Switch_W_b
  | 0x24 => two Switch_E_a Switch_E_b
  | 0x2D => two Switch_R_a Switch_R_b
  | 0x2C => two Switch_T_a Switch_T_b
  | 0x6B => if truthy (extended st) then two Switch_LEFT_a Switch_LEFT_b
            else two Switch_4_a Switch_4_b
  | 0x66 => two Switch_LEFT_a Switch_LEFT_b
  | 0x1C => two Switch_A_a Switch_A_b
  | 0x1B => two Switch_S_a Switch_S_b
  | 0x23 => two Switch_D_a Switch_D_b
  | 0x2B => two Switch_F_a Switch_F_b
  | 0x34 => two Switch_G_a Switch_G_b
  | 0x12 => if extended st =? 0 then one Switch_SHIFT else none
  | 0x59 => one Switch_SHIFT
  | 0x1A => two Switch_Z_a Switch_Z_b
  | 0x22 => two Switch_X_a Switch_X_b
  | 0x21 => two Switch_C_a Switch_C_b
  | 0x2A => two Switch_V_a Switch_V_b
  | 0x32 => two Switch_B_a Switch_B_b
  | 0x14 => one Switch_CNTL
  (* right controller keyboard *)
  | 0x3D => two Switch_7_a Switch_7_b
  | 0x6C => if extended st =? 0 then two Switch_7_a Switch_7_b else none
  | 0x3E => two Switch_8_a Switch_8_b
  | 0x75 => if extended st =? 0 then two Switch_8_a Switch_8_b else none
  | 0x46 => two Switch_9_a Switch_9_b
  | 0x7D => if extended st =? 0 then two Switch_9_a Switch_9_b else none
  | 0x45 => two Switch_0_a Switch_0_b
  | 0x70 => if extended st =? 0 then two Switch_0_a Switch_0_b else none
  | 0x52 => two Switch_COLON_a Switch_COLON_b
  | 0x4E => one Switch_MINUS
  | 0x7B => one Switch_MINUS
  | 0x35 => two Switch_Y_a Switch_Y_b
  | 0x3C => two Switch_U_a Switch_U_b
  | 0x43 => two Switch_I_a Switch_I_b
  | 0x44 => two Switch_O_a Switch_O_b
  | 0x4D => two Switch_P_a Switch_P_b
  | 0x5A => two Switch_RETN_a Switch_RETN_b
  | 0x33 => two Switch_H_a Switch_H_b
  | 0x3B => two Switch_J_a Switch_J_b
  | 0x42 => two Switch_K_a Switch_K_b
  | 0x4B => two Switch_L_a Switch_L_b
  | 0x4C => two Switch_SEMICOLON_a Switch_SEMICOLON_b
  | 0x31 => two Switch_N_a Switch_N_b
  | 0x3A => two Switch_M_a Switch_M_b
  | 0x41 => two Switch_COMMA_a Switch_COMMA_b
  | 0x49 => two Switch_PERIOD_a Switch_PERIOD_b
  | 0x71 => if extended st =? 0 then two Switch_PERIOD_a Switch_PERIOD_b
            else none
  | 0x4A => two Switch_FORWARDSLASH_a Switch_FORWARDSLASH_b
  | 0x74 => if truthy (extended st) then one Switch_RIGHT
            else two Switch_6_a Switch_6_b
  | 0x29 => two Switch_SPACE_a Switch_SPACE_b
  | _ => (mkFlags 0 0, NO_SWITCH_ACTION, NO_SWITCH_ACTION)
  end.

(** The calls issued for one switch value (lines 1261-1271, 1272-1282). *)
Definition switch_calls (key_release switchValue : Z) : list call :=
  if negb (switchValue =? NO_SWITCH_ACTION)
  then [(negb (truthy key_release), switchValue)]
  else [].

(** The statement [if (scanCode) { ... }] of [process_PS2_ScanCode] (lines
    890-1288): the [switch], then the calls for the switch values it left
    and the clearing of both flags when at least one is an address. *)
Definition interpret_scanCode (scanCode : Z) (st : key_flags)
  : key_flags * list call :=
  if truthy scanCode then
    let '(st, switchValue_a, switchValue_b) := scanCode_switch scanCode st in
    if negb (switchValue_a =? NO_SWITCH_ACTION)
       || negb (switchValue_b =? NO_SWITCH_ACTION)
    then
      (mkFlags 0 0,
       switch_calls (key_release st) switchValue_a
         ++ switch_calls (key_release st) switchValue_b)
    else (st, [])
  else (st, []).

(** [process_PS2_ScanCode]: flags and buffer afterwards, calls issued. *)
Definition process_PS2_ScanCode (st : key_flags) (r : ring)
  : option (key_flags * ring * list call) :=
  match get_PS2_ScanCode r with
  | None => None
  | Some (scanCode, r) =>
      let '(st, cs) := interpret_scanCode scanCode st in
      Some (st, r, cs)
  end.

(** Successive polls of the interpreter, the calls concatenated. *)
Fixpoint process_PS2_ScanCodes (n : nat) (st : key_flags) (r : ring)
  : option (key_flags * ring * list call) :=
  match n with
  | O => Some (st, r, [])
  | S n =>
      match process_PS2_ScanCode st r with
      | None => None
      | Some (st, r, cs) =>
          match process_PS2_ScanCodes n st r with
          | None => None
          | Some (st, r, cs') => Some (st, r, cs ++ cs')
          end
      end
  end.

(** The bytes pushed by the decoder into the reset buffer, then one poll of
    the interpreter per byte: final flags and all calls issued. *)
Definition interpret_bytes (bytes : list Z) (st : key_flags)
  : option (key_flags * list call) :=
  match adds bytes ring_init with
  | None => None
  | Some r =>
      match process_PS2_ScanCodes (length bytes) st r with
      | None => None
      | Some (st, _, cs) => Some (st, cs)
      end
  end.

(** The codes whose [case] assigns switch values only under
    [if (extended == 0)], with no [else]: keypad 1, 2, 3, left shift,
    keypad 7, 8, 9, 0 and keypad '.'. *)
Definition extended_guarded_codes : list Z :=
  [0x69; 0x72; 0x7A; 0x12; 0x6C; 0x75; 0x7D; 0x70; 0x71].

(** The flags a poll leaves, case by case: a returned 0 and a guarded code
    met with the extended flag set leave them alone, the prefixes set one
    of them, every other code clears both. *)
Definition flags_after (scanCode : Z) (st : key_flags) : key_flags :=
  if scanCode =? 0 then st
  else if scanCode =? 0xF0 then mkFlags 1 (extended st)
  else if (scanCode =? 0xE0) || (scanCode =? 0xE1)
  then mkFlags (key_release st) 1
  else if existsb (Z.eqb scanCode) extended_guarded_codes
          && truthy (extended st)
  then st
  else mkFlags 0 0.

Definition key_flags_eqb (s t : key_flags) : bool :=
  (key_release s =? key_release t) && (extended s =? extended t).

(** The flag values the interpreter can be in: it only stores 0 and 1. *)
Definition reachable_flags : list key_flags :=
  [mkFlags 0 0; mkFlags 0 1; mkFlags 1 0; mkFlags 1 1].

(** The 26 letter keys: scan code and the two switch addresses the
    [switch] assigns to it. *)
Definition letter_keys : list (Z * (Z * Z)) :=
  [ (0x15, (Switch_Q_a, Switch_Q_b)); (0x1D, (Switch_W_a, Switch_W_b));
    (0x24, (Switch_E_a, Switch_E_b)); (0x2D, (Switch_R_a, Switch_R_b));
    (0x2C, (Switch_T_a, Switch_T_b)); (0x1C, (Switch_A_a, Switch_A_b));
    (0x1B, (Switch_S_a, Switch_S_b)); (0x23, (Switch_D_a, Switch_D_b));
    (0x2B, (Switch_F_a, Switch_F_b)); (0x34, (Switch_G_a, Switch_G_b));
    (0x1A, (Switch_Z_a, Switch_Z_b)); (0x22, (Switch_X_a, Switch_X_b));
    (0x21, (Switch_C_a, Switch_C_b)); (0x2A, (Switch_V_a, Switch_V_b));
    (0x32, (Switch_B_a, Switch_B_b)); (0x35, (Switch_Y_a, Switch_Y_b));
    (0x3C, (Switch_U_a, Switch_U_b)); (0x43, (Switch_I_a, Switch_I_b));
    (0x44, (Switch_O_a, Switch_O_b)); (0x4D, (Switch_P_a, Switch_P_b));
    (0x33, (Switch_H_a, Switch_H_b)); (0x3B, (Switch_J_a, Switch_J_b));
    (0x42, (Switch_K_a, Switch_K_b)); (0x4B, (Switch_L_a, Switch_L_b));
    (0x31, (Switch_N_a, Switch_N_b)); (0x3A, (Switch_M_a, Switch_M_b)) ].

(** ** The joystick samplers ([main.c], lines 548-847) *)

(** [readJoystick_Left]: [PORTD.IN] pins 2-7, active low, as [0b00BBRLDU]. *)
Definition readJoystick_Left (PORTD_IN : Z) : Z :=
  let joyValD := u8 (Z.land (Z.lnot PORTD_IN) 0xFC) in
  Z.shiftr joyValD 2.

(** [readJoystick_Right]: [PORTC.IN] pins 0-3 and [PORTD.IN] pins 0-1. *)
Definition readJoystick_Right (PORTC_IN PORTD_IN : Z) : Z :=
  let joyValC := u8 (Z.land (Z.lnot PORTC_IN) 0x0F) in
  let joyValD := u8 (Z.land (Z.lnot PORTD_IN) 0x03) in
  let joyValD := u8 (Z.shiftl joyValD 4) in
  Z.lor joyValC joyValD.


(** The [switch (joyLeft & 0x0F)] statement of [process_Joystick_Left]. *)
Definition joyLeft_direction_calls (joyLeft : Z) : list call :=
  match Z.land joyLeft 0x0F with
  | 0x01 => (* Up *)
      [ (false, Switch_JoyL_Down);
        (false, Switch_JoyL_Left);
        (false, Switch_JoyL_Right);
        (false, Switch_JoyL_UpLeft_Extra);
        (false, Switch_JoyL_UpRightDownLeft_Extra);
        (false, Switch_JoyL_DownRight_Extra);
        (true, Switch_JoyL_Up) ]
  | 0x02 => (* Down *)
      [ (false, Switch_JoyL_Up);
        (false, Switch_JoyL_Left);
        (false, Switch_JoyL_Right);
        (false, Switch_JoyL_UpLeft_Extra);
        (false, Switch_JoyL_UpRightDownLeft_Extra);
        (false, Switch_JoyL_DownRight_Extra);
        (true, Switch_JoyL_Down) ]
  | 0x04 => (* Left *)
      [ (false, Switch_JoyL_Up);
        (false, Switch_JoyL_Down);
        (false, Switch_JoyL_Right);
        (false, Switch_JoyL_UpLeft_Extra);
        (false, Switch_JoyL_UpRightDownLeft_Extra);
        (false, Switch_JoyL_DownRight_Extra);
        (true, Switch_JoyL_Left) ]
  | 0x08 => (* Right *)
      [ (false, Switch_JoyL_Up);
        (false, Switch_JoyL_Down);
        (false, Switch_JoyL_Left);
        (false, Switch_JoyL_UpLeft_Extra);
        (false, Switch_JoyL_UpRightDownLeft_Extra);
        (false, Switch_JoyL_DownRight_Extra);
        (true, Switch_JoyL_Right) ]
  | 0x05 => (* Up Left *)
      [ (false, Switch_JoyL_Down);
        (false, Switch_JoyL_Right);
        (false, Switch_JoyL_UpRightDownLeft_Extra);
        (false, Switch_JoyL_DownRight_Extra);
        (true, Switch_JoyL_UpLeft_Extra);
        (true, Switch_JoyL_Up);
        (true, Switch_JoyL_Left) ]
  | 0x09 => (* Up Right *)
      [ (false, Switch_JoyL_Down);
        (false, Switch_JoyL_Left);
        (false, Switch_JoyL_UpLeft_Extra);
        (false, Switch_JoyL_DownRight_Extra);
        (true, Switch_JoyL_UpRightDownLeft_Extra);
        (true, Switch_JoyL_Up);
        (true, Switch_JoyL_Right) ]
  | 0x0A => (* Down Right *)
      [ (false, Switch_JoyL_Up);
        (false, Switch_JoyL_Left);
        (false, Switch_JoyL_UpLeft_Extra);
        (false, Switch_JoyL_UpRightDownLeft_Extra);
        (true, Switch_JoyL_DownRight_Extra);
        (true, Switch_JoyL_Down);
        (true, Switch_JoyL_Right) ]
  | 0x06 => (* Down Left *)
      [ (false, Switch_JoyL_Up);
        (false, Switch_JoyL_Right);
        (false, Switch_JoyL_UpLeft_Extra);
        (false, Switch_JoyL_DownRight_Extra);
        (true, Switch_JoyL_UpRightDownLeft_Extra);
        (true, Switch_JoyL_Down);
        (true, Switch_JoyL_Left) ]
  | _ => (* no joystick switch is on *)
      [ (false, Switch_JoyL_Up);
        (false, Switch_JoyL_Down);
        (false, Switch_JoyL_Left);
        (false, Switch_JoyL_Right);
        (false, Switch_JoyL_UpLeft_Extra);
        (false, Switch_JoyL_UpRightDownLeft_Extra);
        (false, Switch_JoyL_DownRight_Extra) ]
  end.

(** [process_Joystick_Left]: the new [joyLeft_prev] and the calls issued. *)
Definition process_Joystick_Left (PORTD_IN : Z) (joyLeft_prev : Z)
  : Z * list call :=
  let joyLeft := readJoystick_Left PORTD_IN in
  if negb (joyLeft =? joyLeft_prev) then
    (joyLeft,
     [ (truthy (Z.land joyLeft 0x10), Switch_JoyL_Button1) ]
       ++ [ (truthy (Z.land joyLeft 0x20), Switch_JoyL_Button2) ]
       ++ joyLeft_direction_calls joyLeft)
  else (joyLeft_prev, []).

(** The [switch (joyRight & 0x0F)] statement of [process_Joystick_Right]. *)
Definition joyRight_direction_calls (joyRight : Z) : list call :=
  match Z.land joyRight 0x0F with
  | 0x01 => (* Up *)
      [ (false, Switch_JoyR_Down);
        (false, Switch_JoyR_Left);
        (false, Switch_JoyR_Right);
        (false, Switch_JoyR_UpLeft_Extra);
        (false, Switch_JoyR_UpRightDownLeft_Extra);
        (false, Switch_JoyR_DownRight_Extra);
        (true, Switch_JoyR_Up) ]
  | 0x02 => (* Down *)
      [ (false, Switch_JoyR_Up);
        (false, Switch_JoyR_Left);
        (false, Switch_JoyR_Right);
        (false, Switch_JoyR_UpLeft_Extra);
        (false, Switch_JoyR_UpRightDownLeft_Extra);
        (false, Switch_JoyR_DownRight_Extra);
        (true, Switch_JoyR_Down) ]
  | 0x04 => (* Left *)
      [ (false, Switch_JoyR_Up);
        (false, Switch_JoyR_Down);
        (false, Switch_JoyR_Right);
        (false, Switch_JoyR_UpLeft_Extra);
        (false, Switch_JoyR_UpRightDownLeft_Extra);
        (false, Switch_JoyR_DownRight_Extra);
        (true, Switch_JoyR_Left) ]
  | 0x08 => (* Right *)
      [ (false, Switch_JoyR_Up);
        (false, Switch_JoyR_Down);
        (false, Switch_JoyR_Left);
        (false, Switch_JoyR_UpLeft_Extra);
        (false, Switch_JoyR_UpRightDownLeft_Extra);
        (false, Switch_JoyR_DownRight_Extra);
        (true, Switch_JoyR_Right) ]
  | 0x05 => (* Up Left *)
      [ (false, Switch_JoyR_Down);
        (false, Switch_JoyR_Right);
        (false, Switch_JoyR_UpRightDownLeft_Extra);
        (false, Switch_JoyR_DownRight_Extra);
        (true, Switch_JoyR_UpLeft_Extra);
        (true, Switch_JoyR_Up);
        (true, Switch_JoyR_Left) ]
  | 0x09 => (* Up Right *)
      [ (false, Switch_JoyR_Down);
        (false, Switch_JoyR_Left);
        (false, Switch_JoyR_UpLeft_Extra);
        (false, Switch_JoyR_DownRight_Extra);
        (true, Switch_JoyR_UpRightDownLeft_Extra);
        (true, Switch_JoyR_Up);
        (true, Switch_JoyR_Right) ]
  | 0x0A => (* Down Right *)
      [ (false, Switch_JoyR_Up);
        (false, Switch_JoyR_Left);
        (false, Switch_JoyR_UpLeft_Extra);
        (false, Switch_JoyR_UpRightDownLeft_Extra);
        (true, Switch_JoyR_DownRight_Extra);
        (true, Switch_JoyR_Down);
        (true, Switch_JoyR_Right) ]
  | 0x06 => (* Down Left *)
      [ (false, Switch_JoyR_Up);
        (false, Switch_JoyR_Right);
        (false, Switch_JoyR_UpLeft_Extra);
        (false, Switch_JoyR_DownRight_Extra);
        (true, Switch_JoyR_UpRightDownLeft_Extra);
        (true, Switch_JoyR_Down);
        (true, Switch_JoyR_Left) ]
  | _ => (* no joystick switch is on *)
      [ (false, Switch_JoyR_Up);
        (false, Switch_JoyR_Down);
        (false, Switch_JoyR_Left);
        (false, Switch_JoyR_Right);
        (false, Switch_JoyR_UpLeft_Extra);
        (false, Switch_JoyR_UpRightDownLeft_Extra);
        (false, Switch_JoyR_DownRight_Extra) ]
  end.

(** [process_Joystick_Right]: the new [joyRight_prev] and the calls issued. *)
Definition process_Joystick_Right (PORTC_IN PORTD_IN : Z) (joyRight_prev : Z)
  : Z * list call :=
  let joyRight := readJoystick_Right PORTC_IN PORTD_IN in
  if negb (joyRight =? joyRight_prev) then
    (joyRight,
     [ (truthy (Z.land joyRight 0x10), Switch_JoyR_Button1) ]
       ++ [ (truthy (Z.land joyRight 0x20), Switch_JoyR_Button2) ]
       ++ joyRight_direction_calls joyRight)
  else (joyRight_prev, []).

(** *** Reading a sequence of calls *)

(** The addresses closed, and opened, by a sequence of calls, in order. *)
Definition closes (cs : list call) : list Z := map snd (filter (fun c => fst c = true) cs).
Definition opens (cs : list call) : list Z := map snd (filter (fun c => fst c = false) cs).

(** No close comes before an open. *)
Fixpoint opens_before_closes (cs : list call) : bool :=
  match cs with
  | [] => true
  | (true, _) :: cs => forallb (fun c => fst c) cs
  | (false, _) :: cs => opens_before_closes cs
  end.

(** *** Auxiliary notions used in the statements *)

(** Number of unread bytes the 254-cell array can hold: one cell stays
    free, since equal indices mean empty. *)
Definition ring_capacity : nat := 253.

(** What a push does to the queue of unread bytes: append, after dropping
    the oldest byte of a full queue. *)
Definition queue_add (x : Z) (q : list Z) : list Z :=
  (if decide (length q = ring_capacity) then drop 1 q else q) ++ [x].

(** The code's emptiness test. *)
Definition ring_empty (r : ring) : Prop :=
  PS2_ScanCodeBuffer_Start r = PS2_ScanCodeBuffer_End r.

(** The decoder between two frames. *)
Definition frame_start (f : ps2_frame) : Prop :=
  bitCount f = 0 /\ parityCount f = 0 /\ 0 <= data f < 256.

(** The data register after shifting in a run of levels. *)
Definition shift_in (bits : list bool) (d : Z) : Z :=
  fold_left (fun d (b : bool) => d / 2 + 128 * Z.b2z b) bits d.

(** The integers [0 .. n-1]. *)
Definition below (n : nat) : list Z := map Z.of_nat (seq 0 n).

(** ** Reset and the main loop ([main.c], lines 520-525, 1357-1383) *)

(** [MT8816_Reset]: the calls made by the two nested [for] loops, [lp1]
    over 0..3 outside, [lp2] over 0..15 inside; the address expression is
    converted to the [uint8_t] parameter. *)
Definition MT8816_Reset : list call :=
  flat_map
    (fun lp1 =>
       map (fun lp2 => (false, u8 (Z.lor (Z.shiftl lp1 4) lp2))) (below 16))
    (below 4).

(** The port address [MT8816_Switch] presents for a switch address: the
    value it assigns to [PORTA.OUT] first. *)
Definition port_address (switchAddress : Z) : Z :=
  Z.lor (switchAddressX_remap (Z.land switchAddress 0x0F))
        (Z.land switchAddress 0x30).

(** The [static] locals of the three polled functions and the buffer. *)
Record controller : Type := mkController {
  joyLeft_prev : Z;
  joyRight_prev : Z;
  flags : key_flags;
  scan_ring : ring
}.

(** The state when [main] enters its loop. *)
Definition controller_init : controller :=
  mkController 0 0 (mkFlags 0 0) ring_init.

(** One turn of [while(1)]: the left sampler (reading [PORTD.IN]), the
    right sampler (reading [PORTC.IN] and [PORTD.IN] again), the
    interpreter; the calls in the order issued. *)
Definition main_loop_body (PORTD_IN_1 PORTC_IN PORTD_IN_2 : Z) (s : controller)
  : option (controller * list call) :=
  let '(joyLeft, cs1) := process_Joystick_Left PORTD_IN_1 (joyLeft_prev s) in
  let '(joyRight, cs2) :=
    process_Joystick_Right PORTC_IN PORTD_IN_2 (joyRight_prev s) in
  match process_PS2_ScanCode (flags s) (scan_ring s) with
  | None => None
  | Some (st, r, cs3) =>
      Some (mkController joyLeft joyRight st r, cs1 ++ cs2 ++ cs3)
  end.

(** What happens to the running firmware: a falling clock edge, with the
    value of [PORTF.IN], or one turn of the main loop, with the three port
    values it reads.  The handler only touches the decoder and the buffer,
    and the loop touches the buffer only inside the atomic block of
    [get_PS2_ScanCode], so an edge falls before or after that block. *)
Inductive event : Type :=
  | Edge (PORTF_IN : Z)
  | Turn (PORTD_IN_1 PORTC_IN PORTD_IN_2 : Z).

(** A run of events from a state of decoder and controller. *)
Fixpoint run (PS2_Data_bm : Z) (evs : list event) (s : ps2_frame * controller)
  : option (ps2_frame * controller * list call) :=
  match evs with
  | [] => Some (s, [])
  | ev :: evs =>
      let '(f, c) := s in
      let step :=
        match ev with
        | Edge x =>
            match PS2_Interrupt PS2_Data_bm x (f, scan_ring c) with
            | None => None
            | Some (f, r) =>
                Some (f, mkController (joyLeft_prev c) (joyRight_prev c)
                           (flags c) r, [])
            end
        | Turn d1 pc d2 =>
            match main_loop_body d1 pc d2 c with
            | None => None
            | Some (c, cs) => Some (f, c, cs)
            end
        end in
      match step with
      | None => None
      | Some (s, cs) =>
          match run PS2_Data_bm evs s with
          | None => None
          | Some (s, cs') => Some (s, cs ++ cs')
          end
      end
  end.

(** *** Invariants used in the statements *)

(** The decoder inside a frame: at most ten edges taken, no more ones
    counted than edges, the data register a byte. *)
Definition decoder_inv (f : ps2_frame) : Prop :=
  0 <= bitCount f <= 10
  /\ 0 <= parityCount f <= bitCount f
  /\ 0 <= data f < 256.

(** Every cell of the array is a byte. *)
Definition ring_bytes (r : ring) : Prop :=
  Forall (fun v => 0 <= v < 256) (PS2_ScanCodeBuffer r).

(** The two values the interpreter stores in its flags. *)
Definition flags_wf (st : key_flags) : Prop :=
  (key_release st = 0 \/ key_release st = 1)
  /\ (extended st = 0 \/ extended st = 1).

(** A call inside the 16 x 4 matrix: bits 6 and 7 of the address clear. *)
Definition call_in_matrix (c : call) : Prop := 0 <= snd c < 64.

(** The nine crosspoints of each joystick. *)
Definition JoyL_switches : list Z :=
  [ Switch_JoyL_Button1; Switch_JoyL_Button2; Switch_JoyL_Up;
    Switch_JoyL_Down; Switch_JoyL_Left; Switch_JoyL_Right;
    Switch_JoyL_UpLeft_Extra; Switch_JoyL_UpRightDownLeft_Extra;
    Switch_JoyL_DownRight_Extra ].

Definition JoyR_switches : list Z :=
  [ Switch_JoyR_Button1; Switch_JoyR_Button2; Switch_JoyR_Up;
    Switch_JoyR_Down; Switch_JoyR_Left; Switch_JoyR_Right;
    Switch_JoyR_UpLeft_Extra; Switch_JoyR_UpRightDownLeft_Extra;
    Switch_JoyR_DownRight_Extra ].

(** Whether a sequence of calls closes a given address. *)
Definition closed_by (cs : list call) (a : Z) : bool :=
  existsb (Z.eqb a) (closes cs).

(** The eight snapshots of the direction lines that name a direction. *)
Definition direction_valid (joy : Z) : bool :=
  existsb (Z.eqb (Z.land joy 0x0F))
          [0x01; 0x02; 0x04; 0x08; 0x05; 0x09; 0x0A; 0x06].

(** What holds of decoder and controller throughout a run. *)
Definition system_inv (s : ps2_frame * controller) : Prop :=
  decoder_inv (fst s)
  /\ ring_inv (scan_ring (snd s))
  /\ ring_bytes (scan_ring (snd s))
  /\ flags_wf (flags (snd s)).

(** * Properties *)

(** ** Finite ranges *)

Lemma below_spec (n : nat) (z : Z) : 0 <= z < Z.of_nat n -> In z (below n).
Proof.
  intros Hz. unfold below. apply in_map_iff. exists (Z.to_nat z).
  split; [lia|]. apply in_seq. lia.
Qed.

(** A boolean property checked on [0 .. n-1] holds on that range. *)
Lemma below_forallb (n : nat) (P : Z -> bool) :
  forallb P (below n) = true -> forall z, 0 <= z < Z.of_nat n -> P z = true.
Proof.
  intros H z Hz. rewrite forallb_forall in H. apply H. now apply below_spec.
Qed.

(** ** The ring buffer *)

Lemma advance_spec (i : Z) :
  0 <= i < PS2_ScanCodeBuffer_Size ->
  advance i = (i + 1) mod PS2_ScanCodeBuffer_Size.
Proof.
  intros Hi. revert i Hi.
  assert (H : forall i, 0 <= i < Z.of_nat 254 ->
                (advance i =? (i + 1) mod PS2_ScanCodeBuffer_Size) = true).
  { apply below_forallb. vm_compute. reflexivity. }
  intros i Hi. apply Z.eqb_eq, H. unfold PS2_ScanCodeBuffer_Size in Hi. lia.
Qed.

Lemma advance_range (i : Z) :
  0 <= i < PS2_ScanCodeBuffer_Size ->
  0 <= advance i < PS2_ScanCodeBuffer_Size.
Proof.
  intros Hi. rewrite advance_spec by assumption.
  apply Z.mod_pos_bound. reflexivity.
Qed.

Lemma array_read_in (a : list Z) (i : Z) :
  0 <= i < Z.of_nat (length a) ->
  array_read a i = Some (default 0 (a !! Z.to_nat i)).
Proof.
  intros Hi. unfold array_read.
  destruct (Z.leb_spec 0 i); [|lia].
  destruct (lookup_lt_is_Some_2 a (Z.to_nat i)) as [v Hv]; [lia|].
  now rewrite Hv.
Qed.

Lemma array_write_in (a : list Z) (i v : Z) :
  0 <= i < Z.of_nat (length a) ->
  array_write a i v = Some (<[Z.to_nat i := v]> a).
Proof.
  intros Hi. unfold array_write.
  destruct (Z.leb_spec 0 i); [|lia].
  destruct (Z.ltb_spec i (Z.of_nat (length a))); [|lia].
  reflexivity.
Qed.

(** A push always succeeds on a well-formed buffer, and the result is
    well formed. *)
Lemma add_inv (x : Z) (r : ring) :
  ring_inv r ->
  exists r', PS2_ScanCodeBuffer_add x r = Some r' /\ ring_inv r'.
Proof.
  intros (Hlen & Hs & He). unfold PS2_ScanCodeBuffer_add.
  rewrite array_write_in by (rewrite Hlen; unfold PS2_ScanCodeBuffer_Size in *; lia).
  eexists. split; [reflexivity|].
  unfold ring_inv; cbn [PS2_ScanCodeBuffer PS2_ScanCodeBuffer_Start PS2_ScanCodeBuffer_End].
  rewrite length_insert. split; [assumption|]. split.
  - destruct (_ =? _); [now apply advance_range | assumption].
  - now apply advance_range.
Qed.

(** So does a pop. *)
Lemma get_inv (r : ring) :
  ring_inv r ->
  exists v r', get_PS2_ScanCode r = Some (v, r') /\ ring_inv r'.
Proof.
  intros (Hlen & Hs & He). unfold get_PS2_ScanCode.
  destruct (_ =? _).
  - exists 0, r. split; [reflexivity|]. now repeat split.
  - rewrite array_read_in by (rewrite Hlen; unfold PS2_ScanCodeBuffer_Size in *; lia).
    eexists _, _. split; [reflexivity|].
    unfold ring_inv; cbn [PS2_ScanCodeBuffer PS2_ScanCodeBuffer_Start PS2_ScanCodeBuffer_End].
    split; [assumption|]. split; [now apply advance_range | assumption].
Qed.

Ltac ring_arith :=
  unfold PS2_ScanCodeBuffer_Size, ring_capacity in *; Z.div_mod_to_equations; lia.

Lemma ring_count_range (r : ring) :
  0 <= ring_count r < PS2_ScanCodeBuffer_Size.
Proof. unfold ring_count. apply Z.mod_pos_bound. reflexivity. Qed.

Lemma ring_contents_length (r : ring) :
  length (ring_contents r) = Z.to_nat (ring_count r).
Proof. unfold ring_contents. now rewrite length_map, length_seq. Qed.

Lemma ring_empty_count (r : ring) :
  ring_inv r -> (ring_empty r <-> ring_count r = 0).
Proof.
  intros (_ & Hs & He). unfold ring_empty, ring_count. split; intros H; ring_arith.
Qed.

Lemma ring_empty_contents (r : ring) :
  ring_inv r -> (ring_empty r <-> ring_contents r = []).
Proof.
  intros Hr. rewrite ring_empty_count by assumption.
  pose proof (ring_count_range r) as Hc.
  split; intros H.
  - unfold ring_contents. now rewrite H.
  - apply (f_equal length) in H. rewrite ring_contents_length in H.
    cbn in H. lia.
Qed.

(** Popping: an empty buffer answers 0 and is left alone; otherwise the
    oldest unread byte is returned and removed. *)
Lemma get_contents (r : ring) :
  ring_inv r ->
  (ring_contents r = [] /\ get_PS2_ScanCode r = Some (0, r))
  \/ (exists v r', get_PS2_ScanCode r = Some (v, r') /\ ring_inv r'
                   /\ ring_contents r = v :: ring_contents r').
Proof.
  intros Hr. pose proof Hr as (Hlen & Hs & He).
  unfold get_PS2_ScanCode.
  destruct (Z.eqb_spec (PS2_ScanCodeBuffer_Start r) (PS2_ScanCodeBuffer_End r)) as [Heq|Hne].
  - left. split; [|reflexivity]. now apply ring_empty_contents.
  - right.
    rewrite array_read_in by (rewrite Hlen; unfold PS2_ScanCodeBuffer_Size in *; lia).
    eexists _, _. split; [reflexivity|]. split.
    { unfold ring_inv; cbn [PS2_ScanCodeBuffer PS2_ScanCodeBuffer_Start PS2_ScanCodeBuffer_End].
      split; [assumption|]. split; [now apply advance_range | assumption]. }
    unfold ring_contents, ring_count.
    cbn [PS2_ScanCodeBuffer PS2_ScanCodeBuffer_Start PS2_ScanCodeBuffer_End].
    rewrite advance_spec by assumption.
    set (n := Z.to_nat ((PS2_ScanCodeBuffer_End r - PS2_ScanCodeBuffer_Start r) mod PS2_ScanCodeBuffer_Size)).
    replace (Z.to_nat ((PS2_ScanCodeBuffer_End r - (PS2_ScanCodeBuffer_Start r + 1) mod PS2_ScanCodeBuffer_Size) mod PS2_ScanCodeBuffer_Size)) with (pred n)
      by (subst n; ring_arith).
    assert (Hn : n = S (pred n)) by (subst n; ring_arith).
    rewrite Hn at 1. cbn [seq map]. f_equal.
    + unfold ring_cell. do 3 f_equal. ring_arith.
    + rewrite <- seq_shift, map_map. apply map_ext. intros k.
      unfold ring_cell. cbn [PS2_ScanCodeBuffer PS2_ScanCodeBuffer_Start].
      do 3 f_equal. ring_arith.
Qed.

Lemma ring_cell_insert_ne (buf : list Z) (s e e1 e2 x : Z) (k : nat) :
  0 <= e ->
  (s + Z.of_nat k) mod PS2_ScanCodeBuffer_Size <> e ->
  ring_cell (mkRing (<[Z.to_nat e := x]> buf) s e1) k
  = ring_cell (mkRing buf s e2) k.
Proof.
  intros He Hne. unfold ring_cell.
  cbn [PS2_ScanCodeBuffer PS2_ScanCodeBuffer_Start].
  rewrite list_lookup_insert_ne; [reflexivity|].
  intros Heq. apply Hne. revert Heq. ring_arith.
Qed.

Lemma ring_cell_insert_eq (buf : list Z) (s e e1 x : Z) (k : nat) :
  0 <= e < Z.of_nat (length buf) ->
  (s + Z.of_nat k) mod PS2_ScanCodeBuffer_Size = e ->
  ring_cell (mkRing (<[Z.to_nat e := x]> buf) s e1) k = x.
Proof.
  intros He Heq. unfold ring_cell.
  cbn [PS2_ScanCodeBuffer PS2_ScanCodeBuffer_Start].
  rewrite Heq, list_lookup_insert_eq by lia. reflexivity.
Qed.

(** Pushing: the byte joins the queue of unread bytes, whose oldest member
    is dropped when the queue is full. *)
Lemma add_contents (x : Z) (r : ring) :
  ring_inv r ->
  exists r', PS2_ScanCodeBuffer_add x r = Some r' /\ ring_inv r'
             /\ ring_contents r' = queue_add x (ring_contents r).
Proof.
  intros Hr. destruct (add_inv x r Hr) as (r' & Hadd & Hr').
  exists r'. split; [assumption|]. split; [assumption|].
  destruct Hr as (Hlen & Hs & He). clear Hr'.
  unfold PS2_ScanCodeBuffer_add in Hadd.
  rewrite array_write_in in Hadd
    by (rewrite Hlen; unfold PS2_ScanCodeBuffer_Size in *; lia).
  injection Hadd as <-.
  destruct r as [buf s e].
  cbn [PS2_ScanCodeBuffer PS2_ScanCodeBuffer_Start PS2_ScanCodeBuffer_End] in *.
  assert (Hb : 0 <= e < Z.of_nat (length buf))
    by (rewrite Hlen; unfold PS2_ScanCodeBuffer_Size in *; lia).
  rewrite !advance_spec by assumption.
  unfold queue_add. rewrite ring_contents_length.
  unfold ring_contents at 1 2 3, ring_count.
  cbn [PS2_ScanCodeBuffer PS2_ScanCodeBuffer_Start PS2_ScanCodeBuffer_End].
  set (n := Z.to_nat ((e - s) mod PS2_ScanCodeBuffer_Size)).
  destruct (Z.eqb_spec ((e + 1) mod PS2_ScanCodeBuffer_Size) s) as [Hfull|Hroom].
  - (* the queue was full: the oldest byte goes *)
    assert (Hn : n = 253%nat) by (subst n; ring_arith).
    rewrite Hn. destruct (decide (253%nat = ring_capacity)) as [_|Hc]; [|now elim Hc].
    change (seq 0 253) with (0%nat :: seq 1 252). cbn [map drop].
    replace (Z.to_nat (((e + 1) mod PS2_ScanCodeBuffer_Size
                        - (s + 1) mod PS2_ScanCodeBuffer_Size)
                       mod PS2_ScanCodeBuffer_Size)) with (S 252)
      by ring_arith.
    rewrite seq_S, map_app. cbn [map Nat.add]. f_equal.
    + rewrite <- seq_shift, map_map. apply map_ext_in. intros k Hk%in_seq.
      rewrite (ring_cell_insert_ne buf _ e _ e) by ring_arith.
      unfold ring_cell. cbn [PS2_ScanCodeBuffer PS2_ScanCodeBuffer_Start].
      do 3 f_equal. ring_arith.
    + f_equal. apply ring_cell_insert_eq; [assumption|]. ring_arith.
  - (* room left: plain append *)
    assert (Hn : n <> 253%nat) by (subst n; ring_arith).
    destruct (decide (n = ring_capacity)) as [Hc|_]; [now elim Hn|].
    replace (Z.to_nat (((e + 1) mod PS2_ScanCodeBuffer_Size - s)
                       mod PS2_ScanCodeBuffer_Size)) with (S n)
      by (subst n; ring_arith).
    rewrite seq_S, map_app. cbn [map Nat.add]. f_equal.
    + apply map_ext_in. intros k Hk%in_seq.
      apply ring_cell_insert_ne; [lia|]. subst n. ring_arith.
    + f_equal. apply ring_cell_insert_eq; [assumption|]. subst n. ring_arith.
Qed.

Lemma get_empty (r : ring) :
  ring_inv r -> ring_empty r -> get_PS2_ScanCode r = Some (0, r).
Proof.
  intros Hr He. apply ring_empty_contents in He; [|assumption].
  destruct (get_contents r Hr) as [[_ H]|(v & r' & _ & _ & H)];
    [assumption | congruence].
Qed.

Lemma adds_app (l1 l2 : list Z) (r : ring) :
  adds (l1 ++ l2) r
  = match adds l1 r with Some r1 => adds l2 r1 | None => None end.
Proof.
  revert r. induction l1 as [|x l1 IH]; intros r; cbn [adds app]; [reflexivity|].
  destruct (PS2_ScanCodeBuffer_add x r); [apply IH | reflexivity].
Qed.

(** A run of pushes acts on the queue by [queue_add], byte after byte. *)
Lemma adds_contents (l : list Z) (r : ring) :
  ring_inv r ->
  exists r', adds l r = Some r' /\ ring_inv r'
             /\ ring_contents r'
                = fold_left (fun q x => queue_add x q) l (ring_contents r).
Proof.
  revert r. induction l as [|x l IH]; intros r Hr; cbn [adds fold_left].
  - exists r. auto.
  - destruct (add_contents x r Hr) as (r1 & -> & Hr1 & <-). now apply IH.
Qed.

(** From the empty queue, what is left is the last [ring_capacity] bytes. *)
Lemma queue_adds_nil (l : list Z) :
  fold_left (fun q x => queue_add x q) l []
  = drop (length l - ring_capacity) l.
Proof.
  induction l as [|x l IH] using rev_ind; [reflexivity|].
  rewrite fold_left_app. cbn [fold_left]. rewrite IH. clear IH.
  unfold queue_add, ring_capacity. rewrite length_drop, length_app.
  cbn [length].
  destruct (decide _) as [Hfull|Hroom].
  - rewrite drop_drop, drop_app_le by lia. do 2 f_equal. lia.
  - replace (length l - 253)%nat with 0%nat by lia.
    replace (length l + 1 - 253)%nat with 0%nat by lia.
    reflexivity.
Qed.

(** Pops return the unread bytes oldest first. *)
Lemma gets_contents (n : nat) (r : ring) :
  ring_inv r -> (n <= length (ring_contents r))%nat ->
  exists r', gets n r = Some (take n (ring_contents r), r') /\ ring_inv r'
             /\ ring_contents r' = drop n (ring_contents r).
Proof.
  revert r. induction n as [|n IH]; intros r Hr Hn; cbn [gets].
  - exists r. auto.
  - destruct (get_contents r Hr) as [[Hnil _]|(v & r1 & -> & Hr1 & Hc)].
    + rewrite Hnil in Hn. cbn in Hn. lia.
    + rewrite Hc in Hn |- *. cbn [length] in Hn.
      destruct (IH r1 Hr1) as (r' & -> & Hr' & Hc'); [lia|].
      exists r'. auto.
Qed.

Lemma ring_init_inv : ring_inv ring_init.
Proof. unfold ring_inv, ring_init. cbn. split; [reflexivity|]. split; split; reflexivity || discriminate. Qed.

(** ** The decoder, edge by edge *)

(** Shifting one level into the data register. *)
Lemma data_shift (d : Z) :
  0 <= d < 256 ->
  u8 (Z.lor (Z.shiftr d 1) 0x80) = d / 2 + 128
  /\ Z.land (Z.shiftr d 1) 0x7f = d / 2.
Proof.
  intros Hd.
  assert (H : forall d, 0 <= d < Z.of_nat 256 ->
     ((u8 (Z.lor (Z.shiftr d 1) 0x80) =? d / 2 + 128)
      && (Z.land (Z.shiftr d 1) 0x7f =? d / 2)) = true).
  { apply below_forallb. vm_compute. reflexivity. }
  specialize (H d ltac:(lia)). apply andb_true_iff in H as [H1 H2].
  split; now apply Z.eqb_eq.
Qed.

Section DecoderSteps.
Variable m : Z.

(** Edge 1 latches the start level. *)
Lemma PS2_Interrupt_start x sb d pc st r :
  PS2_Interrupt m x (mkFrame sb d pc st 0, r)
  = Some (mkFrame (u8 (Z.land x m)) d pc st 1, r).
Proof. reflexivity. Qed.

(** Edges 2 to 9 shift a data level in and count it. *)
Lemma PS2_Interrupt_data x sb d pc st n r :
  1 <= n <= 8 -> 0 <= d < 256 -> 0 <= pc < 255 ->
  PS2_Interrupt m x (mkFrame sb d pc st n, r)
  = Some (mkFrame sb (d / 2 + 128 * Z.b2z (observed m x))
                  (pc + Z.b2z (observed m x)) st (n + 1), r).
Proof.
  intros Hn Hd Hpc. destruct (data_shift d Hd) as [H1 H0].
  assert (Hi : incr8 pc = pc + 1) by (unfold incr8, u8; rewrite Z.mod_small; lia).
  unfold PS2_Interrupt, observed.
  assert (Hb : incr8 n = n + 1) by (unfold incr8, u8; rewrite Z.mod_small; lia).
  cbn [bitCount data parityCount startBit stopBit]. rewrite Hb.
  destruct (Z.eqb_spec (n + 1) 1); [lia|].
  destruct (Z.leb_spec 2 (n + 1)); [|lia].
  destruct (Z.leb_spec (n + 1) 9); [|lia].
  destruct (Z.ltb_spec 10 (n + 1)); [lia|].
  cbn [andb bitCount data parityCount startBit stopBit].
  destruct (truthy (u8 (Z.land x m))); cbn [Z.b2z].
  - rewrite H1, Hi. do 3 f_equal; lia.
  - rewrite H0. do 3 f_equal; lia.
Qed.

(** Edge 10 counts the parity level. *)
Lemma PS2_Interrupt_parity x sb d pc st r :
  0 <= pc < 255 ->
  PS2_Interrupt m x (mkFrame sb d pc st 9, r)
  = Some (mkFrame sb d (pc + Z.b2z (observed m x)) st 10, r).
Proof.
  intros Hpc.
  assert (Hi : incr8 pc = pc + 1) by (unfold incr8, u8; rewrite Z.mod_small; lia).
  unfold PS2_Interrupt, observed.
  cbn [bitCount data parityCount startBit stopBit].
  change (incr8 9) with 10.
  cbn [Z.eqb Z.leb Z.ltb Z.compare Pos.compare Pos.compare_cont andb bitCount data parityCount startBit stopBit].
  destruct (truthy (u8 (Z.land x m))); cbn [Z.b2z]; [now rewrite Hi|].
  now rewrite Z.add_0_r.
Qed.

(** Edge 11 latches the stop level, judges the frame and starts over. *)
Lemma PS2_Interrupt_stop x sb d pc st r :
  PS2_Interrupt m x (mkFrame sb d pc st 10, r)
  = match
      (if truthy (pc mod 2) && negb (truthy sb) && observed m x
       then PS2_ScanCodeBuffer_add d r else Some r)
    with
    | Some r' => Some (mkFrame sb d 0 (u8 (Z.land x m)) 0, r')
    | None => None
    end.
Proof. reflexivity. Qed.
End DecoderSteps.

Lemma popcount_cons (b : bool) (bits : list bool) :
  popcount (b :: bits) = (Nat.b2n b + popcount bits)%nat.
Proof. destruct b; reflexivity. Qed.

Lemma shift_in_range (bits : list bool) (d : Z) :
  0 <= d < 256 -> 0 <= shift_in bits d < 256.
Proof.
  revert d. induction bits as [|b bits IH]; intros d Hd; [assumption|].
  apply IH. destruct b; cbn [Z.b2z]; Z.div_mod_to_equations; lia.
Qed.

(** Eight levels shifted in leave exactly their value, whatever the
    register held before. *)
Lemma shift_in_byte (bits : list bool) (d : Z) :
  length bits = 8%nat -> 0 <= d < 256 -> shift_in bits d = lsb_value bits.
Proof.
  intros Hlen Hd.
  do 8 (destruct bits as [|? bits]; [discriminate|]).
  destruct bits; [clear Hlen|discriminate].
  revert d Hd.
  assert (H : forall P : Z -> bool,
             forallb P (below 256) = true ->
             forall d, 0 <= d < 256 -> P d = true).
  { intros P HP d Hd. apply (below_forallb 256 P HP). lia. }
  repeat match goal with b : bool |- _ => destruct b end;
    intros d Hd; apply Z.eqb_eq;
    apply (H (fun d => shift_in _ d =? lsb_value _)); try assumption;
    vm_compute; reflexivity.
Qed.

Section DecoderRuns.
Variable m : Z.

(** A run of data edges. *)
Lemma PS2_Interrupts_data xs : forall sb d pc st n r,
  1 <= n -> n + Z.of_nat (length xs) <= 9 ->
  0 <= d < 256 -> 0 <= pc -> pc + Z.of_nat (length xs) <= 255 ->
  PS2_Interrupts m xs (mkFrame sb d pc st n, r)
  = Some (mkFrame sb (shift_in (map (observed m) xs) d)
                  (pc + Z.of_nat (popcount (map (observed m) xs)))
                  st (n + Z.of_nat (length xs)), r).
Proof.
  induction xs as [|x xs IH]; intros sb d pc st n r Hn Hlen Hd Hpc Hpc'.
  - cbn. now rewrite !Z.add_0_r.
  - cbn [PS2_Interrupts length map] in *.
    rewrite PS2_Interrupt_data by lia.
    rewrite IH.
    + rewrite popcount_cons. cbn [shift_in fold_left].
      do 3 f_equal; destruct (observed m x); cbn [Z.b2z Nat.b2n]; lia.
    + lia.
    + lia.
    + destruct (observed m x); cbn [Z.b2z]; Z.div_mod_to_equations; lia.
    + destruct (observed m x); cbn [Z.b2z]; lia.
    + destruct (observed m x); cbn [Z.b2z]; lia.
Qed.
End DecoderRuns.

Lemma popcount_app (l1 l2 : list bool) :
  popcount (l1 ++ l2) = (popcount l1 + popcount l2)%nat.
Proof. unfold popcount. now rewrite filter_app, length_app. Qed.

Lemma popcount_le (bits : list bool) : (popcount bits <= length bits)%nat.
Proof.
  induction bits as [|b bits IH]; [reflexivity|].
  rewrite popcount_cons. destruct b; cbn [Nat.b2n length]; lia.
Qed.

(** [parityCount % 2] is the oddness of the number of ones counted. *)
Lemma parity_test (n : nat) : truthy (Z.of_nat n mod 2) = Nat.odd n.
Proof.
  unfold truthy. rewrite Zmod_odd.
  replace (Z.odd (Z.of_nat n)) with (Nat.odd n).
  - now destruct (Nat.odd n).
  - induction n as [|n IH]; [reflexivity|].
    rewrite Nat2Z.inj_succ, Z.odd_succ, Nat.odd_succ.
    rewrite <- Z.negb_odd, <- Nat.negb_odd, IH. reflexivity.
Qed.

Lemma add_changes (x : Z) (r r' : ring) :
  ring_inv r -> PS2_ScanCodeBuffer_add x r = Some r' -> r' <> r.
Proof.
  intros (Hlen & Hs & He) Hadd Heq. subst r'.
  unfold PS2_ScanCodeBuffer_add in Hadd.
  destruct (array_write _ _ _); [|discriminate].
  injection Hadd as Hadd. apply (f_equal PS2_ScanCodeBuffer_End) in Hadd.
  cbn [PS2_ScanCodeBuffer_End] in Hadd.
  rewrite advance_spec in Hadd by assumption. ring_arith.
Qed.

Lemma PS2_Interrupts_app (m : Z) (l1 l2 : list Z) (s : ps2_frame * ring) :
  PS2_Interrupts m (l1 ++ l2) s
  = match PS2_Interrupts m l1 s with
    | Some s1 => PS2_Interrupts m l2 s1
    | None => None
    end.
Proof.
  revert s. induction l1 as [|x l1 IH]; intros s; cbn [PS2_Interrupts app];
    [reflexivity|].
  destruct (PS2_Interrupt m x s); [apply IH | reflexivity].
Qed.

(** One whole frame, from the decoder at rest: the buffer receives the data
    byte exactly when the frame is well framed, and the decoder is at rest
    again. *)
Lemma PS2_frame (m : Z) (f : ps2_frame) (r : ring) (samples : list Z) :
  frame_start f -> length samples = 11%nat ->
  exists f',
    frame_start f'
    /\ PS2_Interrupts m samples (f, r)
       = match
           (if frame_valid (map (observed m) samples)
            then PS2_ScanCodeBuffer_add
                   (frame_byte (map (observed m) samples)) r
            else Some r)
         with
         | Some r' => Some (f', r')
         | None => None
         end.
Proof.
  intros (Hbc & Hpc & Hd) Hlen. destruct f as [sb d pc st bc].
  cbn [bitCount parityCount data] in *. subst bc pc.
  destruct samples as [|x0 samples]; [discriminate|].
  injection Hlen as Hlen.
  assert (Hxs : length (take 8 samples) = 8%nat)
    by (rewrite length_take; lia).
  assert (Hys : length (drop 8 samples) = 2%nat)
    by (rewrite length_drop; lia).
  rewrite <- (take_drop 8 samples).
  generalize dependent (drop 8 samples). intros ys Hys.
  generalize dependent (take 8 samples). intros xs Hxs.
  clear Hlen samples.
  destruct ys as [|x9 [|x10 [|? ?]]]; try discriminate. clear Hys.
  cbn [PS2_Interrupts]. rewrite PS2_Interrupt_start.
  rewrite PS2_Interrupts_app, PS2_Interrupts_data by lia.
  rewrite Hxs. change (1 + Z.of_nat 8) with 9.
  pose proof (popcount_le (map (observed m) xs)) as Hpop.
  rewrite length_map in Hpop.
  cbn [PS2_Interrupts]. rewrite PS2_Interrupt_parity by lia.
  rewrite PS2_Interrupt_stop.
  rewrite shift_in_byte by (rewrite ?length_map; assumption).
  exists (mkFrame (u8 (Z.land x0 m)) (lsb_value (map (observed m) xs)) 0
                  (u8 (Z.land x10 m)) 0).
  split; [repeat split; cbn [data]|].
  3:{
    replace (frame_byte _) with (lsb_value (map (observed m) xs)).
    2:{ unfold frame_byte. cbn [map drop]. rewrite drop_0, map_app.
        rewrite take_app_length'; [reflexivity | now rewrite length_map]. }
    replace (frame_valid _)
      with (truthy ((0 + Z.of_nat (popcount (map (observed m) xs))
                     + Z.b2z (observed m x9)) mod 2)
            && negb (truthy (u8 (Z.land x0 m))) && observed m x10).
    2:{ unfold frame_valid. cbn [map]. rewrite map_app. cbn [map].
        change (?a ++ [?b; ?c]) with (a ++ [b] ++ [c]).
        rewrite app_assoc.
        rewrite take_app_length', drop_app_length'
          by (rewrite length_app, length_map, Hxs; reflexivity).
        rewrite popcount_app.
        replace (0 + Z.of_nat (popcount (map (observed m) xs))
                 + Z.b2z (observed m x9))
          with (Z.of_nat (popcount (map (observed m) xs)
                          + popcount [observed m x9]))
          by (destruct (observed m x9);
              [change (popcount [true]) with 1%nat
              |change (popcount [false]) with 0%nat]; cbn [Z.b2z]; lia).
        rewrite parity_test. unfold observed at 4.
        destruct (Nat.odd _), (truthy _), (observed m x10); reflexivity. }
    destruct (_ && _); [destruct (PS2_ScanCodeBuffer_add _ _)|];
      reflexivity. }
  - pose proof (shift_in_range (map (observed m) xs) d Hd) as Hr.
    rewrite shift_in_byte in Hr by (rewrite ?length_map; assumption). lia.
  - pose proof (shift_in_range (map (observed m) xs) d Hd) as Hr.
    rewrite shift_in_byte in Hr by (rewrite ?length_map; assumption). lia.
Qed.

(** *** Frames sent by the keyboard *)

Lemma ps2_encode_length (lo hi b : Z) : length (ps2_encode lo hi b) = 11%nat.
Proof. reflexivity. Qed.

Lemma ps2_encode_observed (m lo hi b : Z) :
  observed m lo = false -> observed m hi = true ->
  map (observed m) (ps2_encode lo hi b)
  = [false] ++ byte_bits b ++ [Nat.even (popcount (byte_bits b))] ++ [true].
Proof.
  intros Hlo Hhi. unfold ps2_encode.
  rewrite !map_app, map_map. cbn [map]. rewrite Hlo, Hhi.
  f_equal. f_equal; [|f_equal].
  - rewrite <- (map_id (byte_bits b)) at 2. apply map_ext.
    intros []; assumption.
  - destruct (Nat.even _); f_equal; assumption.
Qed.

Lemma ps2_encode_valid (b : Z) :
  0 <= b < 256 ->
  let bits :=
    [false] ++ byte_bits b ++ [Nat.even (popcount (byte_bits b))] ++ [true] in
  frame_valid bits = true /\ frame_byte bits = b.
Proof.
  intros Hb bits. subst bits.
  assert (H : forall b, 0 <= b < Z.of_nat 256 ->
    (let bits := [false] ++ byte_bits b
                   ++ [Nat.even (popcount (byte_bits b))] ++ [true] in
     frame_valid bits && (frame_byte bits =? b)) = true).
  { apply below_forallb. vm_compute. reflexivity. }
  specialize (H b ltac:(lia)). cbv zeta in H.
  apply andb_true_iff in H as [H1 H2]. split; [assumption | now apply Z.eqb_eq].
Qed.

(** ** C1: frame validation and byte round trip *)

(** C1.  Let the decoder be at rest (bit counter and parity counter 0) and
    the buffer well formed.  (a) After any 11 clock edges the decoder is at
    rest again, and the buffer has received the byte assembled from levels
    2-9, least significant first, if and only if level 1 is 0, level 11 is 1
    and levels 2-10 hold an odd number of ones; otherwise it is untouched.
    (b) After the frame a keyboard sends for a byte [b], [b] is the newest
    unread byte: popping all unread bytes returns them with [b] last, and
    from an empty buffer the very next pop returns [b]. *)
Theorem PS2_frame_validation (m : Z) (f : ps2_frame) (r : ring) :
  frame_start f -> ring_inv r ->
  (forall samples : list Z,
     length samples = 11%nat ->
     let bits := map (observed m) samples in
     exists f' r',
       PS2_Interrupts m samples (f, r) = Some (f', r')
       /\ frame_start f' /\ ring_inv r'
       /\ (frame_valid bits = true ->
           PS2_ScanCodeBuffer_add (frame_byte bits) r = Some r'
           /\ ring_contents r' = queue_add (frame_byte bits) (ring_contents r))
       /\ (frame_valid bits = false -> r' = r)
       /\ (r' <> r <-> frame_valid bits = true))
  /\ (forall lo hi b : Z,
        observed m lo = false -> observed m hi = true -> 0 <= b < 256 ->
        exists f' r' r'',
          PS2_Interrupts m (ps2_encode lo hi b) (f, r) = Some (f', r')
          /\ gets (length (queue_add b (ring_contents r))) r'
             = Some (queue_add b (ring_contents r), r'')
          /\ ring_empty r''
          /\ (ring_empty r -> get_PS2_ScanCode r' = Some (b, r''))).
Proof.
  intros Hf Hr. split.
  - intros samples Hlen bits.
    destruct (PS2_frame m f r samples Hf Hlen) as (f' & Hf' & Hrun).
    fold bits in Hrun. destruct (frame_valid bits).
    + destruct (add_contents (frame_byte bits) r Hr) as (r' & Hadd & Hr' & Hc).
      rewrite Hadd in Hrun. exists f', r'.
      split; [assumption|]. split; [assumption|]. split; [assumption|].
      split; [auto|]. split; [discriminate|].
      split; [reflexivity|]. intros _.
      now apply (add_changes (frame_byte bits)).
    + exists f', r.
      split; [assumption|]. split; [assumption|]. split; [assumption|].
      split; [discriminate|]. split; [reflexivity|].
      split; [congruence | discriminate].
  - intros lo hi b Hlo Hhi Hb.
    destruct (PS2_frame m f r (ps2_encode lo hi b) Hf (ps2_encode_length lo hi b))
      as (f' & Hf' & Hrun).
    rewrite (ps2_encode_observed m lo hi b Hlo Hhi) in Hrun.
    destruct (ps2_encode_valid b Hb) as [Hv Hbyte]. rewrite Hv, Hbyte in Hrun.
    destruct (add_contents b r Hr) as (r' & Hadd & Hr' & Hc).
    rewrite Hadd in Hrun.
    destruct (gets_contents (length (ring_contents r')) r' Hr')
      as (r'' & Hgets & Hr'' & Hc''); [reflexivity|].
    rewrite firstn_all in Hgets. rewrite drop_all in Hc''.
    rewrite Hc in Hgets. exists f', r', r''.
    split; [assumption|]. split; [assumption|].
    split; [now apply ring_empty_contents|].
    intros He. apply ring_empty_contents in He; [|assumption].
    rewrite He in Hgets. change (queue_add b []) with [b] in Hgets.
    cbn [length gets] in Hgets.
    destruct (get_PS2_ScanCode r') as [[v r1]|]; [|discriminate].
    injection Hgets as Hv1 Hr1. congruence.
Qed.

Lemma PS2_frame_validation_witness :
  frame_start (mkFrame 0 0 0 0 0) /\ ring_inv ring_init
  /\ observed 2 0 = false /\ observed 2 2 = true
  /\ exists f' r' r'',
       PS2_Interrupts 2 (ps2_encode 0 2 0x1C) (mkFrame 0 0 0 0 0, ring_init)
       = Some (f', r')
       /\ get_PS2_ScanCode r' = Some (0x1C, r'').
Proof.
  assert (Hf : frame_start (mkFrame 0 0 0 0 0))
    by (unfold frame_start; cbn; lia).
  split; [exact Hf|]. split; [exact ring_init_inv|].
  split; [reflexivity|]. split; [reflexivity|].
  destruct (PS2_frame_validation 2 (mkFrame 0 0 0 0 0) ring_init Hf ring_init_inv)
    as [_ H].
  destruct (H 0 2 0x1C) as (f' & r' & r'' & Hrun & _ & _ & Hget);
    [reflexivity | reflexivity | lia |].
  exists f', r', r''. split; [exact Hrun|]. apply Hget. reflexivity.
Defined.

(** ** C2: the drop-oldest bound *)

(** What pushes into an empty buffer leave, and what pops then return. *)
Lemma adds_then_gets (r : ring) (bytes : list Z) :
  ring_inv r -> ring_empty r ->
  let kept := drop (length bytes - ring_capacity) bytes in
  exists r1 r2,
    adds bytes r = Some r1
    /\ gets (length kept) r1 = Some (kept, r2)
    /\ ring_inv r2 /\ ring_empty r2.
Proof.
  intros Hr He kept.
  destruct (adds_contents bytes r Hr) as (r1 & Hadds & Hr1 & Hc1).
  apply ring_empty_contents in He; [|assumption].
  rewrite He, queue_adds_nil in Hc1. fold kept in Hc1.
  destruct (gets_contents (length kept) r1 Hr1) as (r2 & Hgets & Hr2 & Hc2);
    [now rewrite Hc1|].
  rewrite Hc1, firstn_all in Hgets. rewrite Hc1, drop_all in Hc2.
  exists r1, r2. split; [assumption|]. split; [assumption|].
  split; [assumption|]. now apply ring_empty_contents.
Qed.

Lemma gets_app (n1 n2 : nat) (r : ring) :
  gets (n1 + n2) r
  = match gets n1 r with
    | Some (l1, r1) =>
        match gets n2 r1 with
        | Some (l2, r2) => Some (l1 ++ l2, r2)
        | None => None
        end
    | None => None
    end.
Proof.
  revert r. induction n1 as [|n1 IH]; intros r; cbn [gets Nat.add].
  - destruct (gets n2 r) as [[l2 r2]|]; reflexivity.
  - destruct (get_PS2_ScanCode r) as [[v r1]|]; [|reflexivity].
    rewrite IH. destruct (gets n1 r1) as [[l1 r1']|]; [|reflexivity].
    destruct (gets n2 r1') as [[l2 r2]|]; reflexivity.
Qed.

(** C2, as the code has it.  The 254-cell array holds at most 253 unread
    bytes.  From an empty buffer, pushing any bytes and popping as many
    times as bytes were kept returns the last 253 bytes pushed (all of them
    if fewer), in order, and leaves the buffer empty.  So pushing 254 bytes
    and popping 253 times yields bytes 2 to 254, exactly byte 1 evicted;
    pushing 255 bytes evicts bytes 1 and 2, and 254 pops yield bytes 3 to
    255 followed by the 0 of an empty buffer. *)
Theorem ring_drop_oldest (r : ring) (bytes : list Z) :
  ring_inv r -> ring_empty r ->
  (exists r1 r2,
     adds bytes r = Some r1
     /\ gets (length (drop (length bytes - 253) bytes)) r1
        = Some (drop (length bytes - 253) bytes, r2)
     /\ ring_empty r2)
  /\ (length bytes = 254%nat ->
      exists r1 r2,
        adds bytes r = Some r1
        /\ gets 253 r1 = Some (drop 1 bytes, r2) /\ ring_empty r2)
  /\ (length bytes = 255%nat ->
      exists r1 r2,
        adds bytes r = Some r1
        /\ gets 254 r1 = Some (drop 2 bytes ++ [0], r2) /\ ring_empty r2).
Proof.
  intros Hr He.
  destruct (adds_then_gets r bytes Hr He) as (r1 & r2 & Hadds & Hgets & Hr2 & He2).
  unfold ring_capacity in Hgets.
  split; [|split].
  - now exists r1, r2.
  - intros Hlen. exists r1, r2. rewrite Hlen, length_drop, Hlen in Hgets.
    now repeat split.
  - intros Hlen. exists r1, r2. rewrite Hlen, length_drop, Hlen in Hgets.
    split; [assumption|]. split; [|assumption].
    change 254%nat with (253 + 1)%nat. rewrite gets_app.
    change (255 - 253)%nat with 2%nat in Hgets.
    change (255 - 2)%nat with 253%nat in Hgets. rewrite Hgets.
    cbn [gets]. now rewrite (get_empty r2 Hr2 He2).
Qed.

Lemma ring_drop_oldest_witness :
  ring_inv ring_init /\ ring_empty ring_init
  /\ length (below 254) = 254%nat
  /\ exists r1 r2,
       adds (below 254) ring_init = Some r1
       /\ gets 253 r1 = Some (drop 1 (below 254), r2).
Proof.
  split; [exact ring_init_inv|]. split; [reflexivity|]. split; [reflexivity|].
  destruct (ring_drop_oldest ring_init (below 254) ring_init_inv eq_refl)
    as (_ & H & _).
  destruct (H eq_refl) as (r1 & r2 & Hadds & Hgets & _).
  exists r1, r2. split; [exact Hadds | exact Hgets].
Defined.

(** C2 as stated fails: with capacity C = 254, pushing the 255 bytes
    1, 2, ..., 255 and popping 254 times does not yield bytes 2 to 255. *)
Lemma ring_capacity_254_counterexample :
  ~ exists r1 r2,
      adds (map Z.of_nat (seq 1 255)) ring_init = Some r1
      /\ gets 254 r1 = Some (map Z.of_nat (seq 2 254), r2).
Proof.
  intros (r1 & r2 & Hadds & Hgets).
  vm_compute in Hadds. injection Hadds as <-.
  vm_compute in Hgets. discriminate.
Qed.

(** ** C10: the indices stay inside the array *)

Lemma array_access_out (a : list Z) (i v : Z) :
  i < 0 \/ Z.of_nat (length a) <= i ->
  array_read a i = None /\ array_write a i v = None.
Proof.
  intros Hi. unfold array_read, array_write.
  destruct (Z.leb_spec 0 i); [|split; reflexivity].
  destruct (Z.ltb_spec i (Z.of_nat (length a))); [lia|].
  split; [|reflexivity]. apply lookup_ge_None_2. lia.
Qed.

Lemma PS2_Interrupt_inv (m x : Z) (f : ps2_frame) (r : ring) :
  ring_inv r ->
  exists f' r', PS2_Interrupt m x (f, r) = Some (f', r') /\ ring_inv r'.
Proof.
  intros Hr. unfold PS2_Interrupt. cbv zeta.
  destruct (10 <? incr8 (bitCount f)).
  - destruct (_ && _).
    + match goal with
      | |- context [PS2_ScanCodeBuffer_add ?d r] =>
          destruct (add_inv d r Hr) as (r' & -> & Hr')
      end.
      eexists _, r'. split; [reflexivity | assumption].
    + eexists _, r. split; [reflexivity | assumption].
  - eexists _, r. split; [reflexivity | assumption].
Qed.

Lemma process_PS2_ScanCode_inv (st : key_flags) (r : ring) :
  ring_inv r ->
  exists st' r' cs,
    process_PS2_ScanCode st r = Some (st', r', cs) /\ ring_inv r'.
Proof.
  intros Hr. unfold process_PS2_ScanCode.
  destruct (get_inv r Hr) as (v & r' & -> & Hr').
  destruct (interpret_scanCode v st) as [st' cs].
  exists st', r', cs. split; [reflexivity | assumption].
Qed.

(** C10.  The reset buffer has both indices below 254 and an array of 254
    cells; from any buffer in that condition, every clock edge handled by
    [PS2_Interrupt] (that is, every push), and every pop by
    [get_PS2_ScanCode] (alone or inside [process_PS2_ScanCode]) has a result
    and leaves the buffer in that condition.  An access outside the array
    has no result in this embedding, so each of these runs reads and writes
    inside the array only. *)
Theorem ring_indices_in_bounds (m : Z) (r : ring) :
  ring_inv r ->
  (0 <= PS2_ScanCodeBuffer_Start r < 254
   /\ 0 <= PS2_ScanCodeBuffer_End r < 254
   /\ length (PS2_ScanCodeBuffer r) = 254%nat)
  /\ (forall x f, exists f' r',
        PS2_Interrupt m x (f, r) = Some (f', r') /\ ring_inv r')
  /\ (forall b, exists r',
        PS2_ScanCodeBuffer_add b r = Some r' /\ ring_inv r')
  /\ (exists v r', get_PS2_ScanCode r = Some (v, r') /\ ring_inv r')
  /\ (forall st, exists st' r' cs,
        process_PS2_ScanCode st r = Some (st', r', cs) /\ ring_inv r')
  /\ (forall a i v, i < 0 \/ Z.of_nat (length a) <= i ->
        array_read a i = None /\ array_write a i v = None)
  /\ ring_inv ring_init.
Proof.
  intros Hr. split; [|split; [|split; [|split; [|split; [|split]]]]].
  - destruct Hr as (Hlen & Hs & He). unfold PS2_ScanCodeBuffer_Size in *.
    repeat split; lia.
  - intros x f. now apply PS2_Interrupt_inv.
  - intros b. now apply add_inv.
  - now apply get_inv.
  - intros st. now apply process_PS2_ScanCode_inv.
  - apply array_access_out.
  - exact ring_init_inv.
Qed.

Lemma ring_indices_in_bounds_witness :
  ring_inv ring_init
  /\ exists v r', get_PS2_ScanCode ring_init = Some (v, r') /\ ring_inv r'.
Proof.
  split; [exact ring_init_inv|].
  exact (proj1 (proj2 (proj2 (proj2
           (ring_indices_in_bounds 2 ring_init ring_init_inv))))).
Defined.

(** ** C9: scan code 0x00 reads as "no byte" *)

(** The frame of a byte, once decoded, makes it the newest unread byte. *)
Lemma PS2_encode_run (m lo hi b : Z) (f : ps2_frame) (r : ring) :
  frame_start f -> ring_inv r ->
  observed m lo = false -> observed m hi = true -> 0 <= b < 256 ->
  exists f' r',
    PS2_Interrupts m (ps2_encode lo hi b) (f, r) = Some (f', r')
    /\ frame_start f' /\ ring_inv r'
    /\ ring_contents r' = queue_add b (ring_contents r).
Proof.
  intros Hf Hr Hlo Hhi Hb.
  destruct (PS2_frame m f r (ps2_encode lo hi b) Hf (ps2_encode_length lo hi b))
    as (f' & Hf' & Hrun).
  rewrite (ps2_encode_observed m lo hi b Hlo Hhi) in Hrun.
  destruct (ps2_encode_valid b Hb) as [Hv Hbyte]. rewrite Hv, Hbyte in Hrun.
  destruct (add_contents b r Hr) as (r' & Hadd & Hr' & Hc).
  rewrite Hadd in Hrun. now exists f', r'.
Qed.

(** The interpreter on a returned 0: nothing issued, flags as they were. *)
Lemma process_PS2_ScanCode_zero (st : key_flags) (r r' : ring) :
  get_PS2_ScanCode r = Some (0, r') ->
  process_PS2_ScanCode st r = Some (st, r', []).
Proof. intros H. unfold process_PS2_ScanCode. now rewrite H. Qed.

(** C9.  [get_PS2_ScanCode] returns 0 on an empty buffer, which it leaves
    alone, and also when the oldest unread byte is 0x00, which it removes.
    The well-framed scan code 0x00 is enqueued by the decoder; the
    interpreter then dequeues it, issues no driver call and keeps both
    flags: calls and flags are those of a poll of an empty buffer. *)
Theorem zero_scan_code_reads_as_empty (m lo hi : Z) (f : ps2_frame)
    (st : key_flags) (r : ring) :
  frame_start f -> ring_inv r -> ring_empty r ->
  observed m lo = false -> observed m hi = true ->
  get_PS2_ScanCode r = Some (0, r)
  /\ process_PS2_ScanCode st r = Some (st, r, [])
  /\ exists f' r' r'',
       PS2_Interrupts m (ps2_encode lo hi 0x00) (f, r) = Some (f', r')
       /\ ring_contents r' = [0x00]
       /\ get_PS2_ScanCode r' = Some (0, r'')
       /\ ring_contents r'' = [] /\ r'' <> r'
       /\ process_PS2_ScanCode st r' = Some (st, r'', []).
Proof.
  intros Hf Hr He Hlo Hhi.
  pose proof (get_empty r Hr He) as Hget0.
  split; [assumption|]. split; [now apply process_PS2_ScanCode_zero|].
  destruct (PS2_encode_run m lo hi 0 f r Hf Hr Hlo Hhi) as (f' & r' & Hrun & _ & Hr' & Hc);
    [lia|].
  apply ring_empty_contents in He; [|assumption].
  rewrite He in Hc. change (queue_add 0 []) with [0] in Hc.
  destruct (get_contents r' Hr') as [[Hnil _]|(v & r'' & Hget & Hr'' & Hc')];
    [congruence|].
  rewrite Hc in Hc'. injection Hc' as <- Hc'.
  exists f', r', r''. split; [assumption|]. split; [assumption|].
  split; [assumption|]. split; [now symmetry|].
  split; [congruence|]. now apply process_PS2_ScanCode_zero.
Qed.

Lemma zero_scan_code_reads_as_empty_witness :
  frame_start (mkFrame 0 0 0 0 0) /\ ring_inv ring_init
  /\ ring_empty ring_init /\ observed 2 0 = false /\ observed 2 2 = true
  /\ process_PS2_ScanCode (mkFlags 1 1) ring_init
     = Some (mkFlags 1 1, ring_init, []).
Proof.
  assert (Hf : frame_start (mkFrame 0 0 0 0 0))
    by (unfold frame_start; cbn; lia).
  split; [exact Hf|]. split; [exact ring_init_inv|].
  split; [reflexivity|]. split; [reflexivity|]. split; [reflexivity|].
  exact (proj1 (proj2
    (zero_scan_code_reads_as_empty 2 0 2 (mkFrame 0 0 0 0 0) (mkFlags 1 1)
       ring_init Hf ring_init_inv eq_refl eq_refl eq_refl))).
Defined.

(** ** C3: the X-address remap *)

Lemma nibble_range (a : Z) : 0 <= Z.land a 0x0F < 16.
Proof.
  change 0x0F with (Z.ones 4). rewrite Z.land_ones by lia.
  apply Z.mod_pos_bound. reflexivity.
Qed.

(** The remap on [0, 16), checked value by value: where it moves a value,
    and that it stays a nibble. *)
Lemma switchAddressX_remap_cases (x : Z) :
  0 <= x < 16 ->
  switchAddressX_remap x
  = (if (6 <=? x) && (x <=? 11) then x + 2
     else if (12 <=? x) && (x <=? 13) then x - 6 else x)
  /\ Z.land (switchAddressX_remap x) 0x0F = switchAddressX_remap x.
Proof.
  intros Hx.
  assert (H : forall x, 0 <= x < Z.of_nat 16 ->
    ((switchAddressX_remap x
      =? (if (6 <=? x) && (x <=? 11) then x + 2
          else if (12 <=? x) && (x <=? 13) then x - 6 else x))
     && (Z.land (switchAddressX_remap x) 0x0F =? switchAddressX_remap x))
    = true).
  { apply below_forallb. vm_compute. reflexivity. }
  specialize (H x ltac:(lia)). apply andb_true_iff in H as [H1 H2].
  split; now apply Z.eqb_eq.
Qed.

(** C3.  For every switch address, the X field that [MT8816_Switch] puts on
    the port is the remap of the address's low nibble [x], the Y field is
    passed as it is, and on [0, 15] the remap adds 2 on 6-11, subtracts 6 on
    12-13 and is the identity elsewhere; 6, 11, 12, 13, 0, 15 go to 8, 13,
    6, 7, 0, 15; the remapped values of 0..15 are a permutation of 0..15. *)
Theorem MT8816_X_remap (MT_Strobe_bm MT_Data_bm : Z) (switchState : bool)
    (switchAddress : Z) :
  let x := Z.land switchAddress 0x0F in
  let out := nth 0 (MT8816_Switch MT_Strobe_bm MT_Data_bm switchState
                      switchAddress) 0 in
  0 <= x <= 15
  /\ out = Z.lor (switchAddressX_remap x) (Z.land switchAddress 0x30)
  /\ Z.land out 0x0F = switchAddressX_remap x
  /\ Z.land out 0x30 = Z.land switchAddress 0x30
  /\ (6 <= x <= 11 -> switchAddressX_remap x = x + 2)
  /\ (12 <= x <= 13 -> switchAddressX_remap x = x - 6)
  /\ (x < 6 \/ 13 < x -> switchAddressX_remap x = x)
  /\ map switchAddressX_remap [6; 11; 12; 13; 0; 15] = [8; 13; 6; 7; 0; 15]
  /\ Permutation (map switchAddressX_remap (below 16)) (below 16).
Proof.
  intros x out. pose proof (nibble_range switchAddress) as Hx. fold x in Hx.
  destruct (switchAddressX_remap_cases x Hx) as [Hcases Hnib].
  assert (Hout : out = Z.lor (switchAddressX_remap x)
                             (Z.land switchAddress 0x30)) by reflexivity.
  clearbody out x.
  split; [lia|]. split; [exact Hout|]. split; [|split].
  - rewrite Hout, Z.land_lor_distr_l, Hnib, <- Z.land_assoc.
    change (Z.land 0x30 0x0F) with 0. now rewrite Z.land_0_r, Z.lor_0_r.
  - rewrite Hout, Z.land_lor_distr_l, <- Z.land_assoc.
    change (Z.land 0x30 0x30) with 0x30.
    rewrite <- Hnib, <- Z.land_assoc. change (Z.land 0x0F 0x30) with 0.
    now rewrite Z.land_0_r, Z.lor_0_l.
  - split; [|split; [|split; [|split]]].
    + intros H. rewrite Hcases.
      destruct (Z.leb_spec 6 x), (Z.leb_spec x 11); cbn [andb];
        first [lia | exfalso; lia].
    + intros H. rewrite Hcases.
      destruct (Z.leb_spec 6 x), (Z.leb_spec x 11), (Z.leb_spec 12 x),
        (Z.leb_spec x 13); cbn [andb]; first [lia | exfalso; lia].
    + intros H. rewrite Hcases.
      destruct (Z.leb_spec 6 x), (Z.leb_spec x 11), (Z.leb_spec 12 x),
        (Z.leb_spec x 13); cbn [andb]; first [lia | exfalso; lia].
    + reflexivity.
    + change (map switchAddressX_remap (below 16))
        with ([0; 1; 2; 3; 4; 5] ++ [8; 9; 10; 11; 12; 13] ++ [6; 7] ++ [14; 15]).
      change (below 16)
        with ([0; 1; 2; 3; 4; 5] ++ [6; 7] ++ [8; 9; 10; 11; 12; 13] ++ [14; 15]).
      apply Permutation_app_head, Permutation_app_swap_app.
Qed.

Lemma MT8816_X_remap_witness :
  6 <= Z.land 0x16 0x0F <= 11
  /\ switchAddressX_remap (Z.land 0x16 0x0F) = Z.land 0x16 0x0F + 2.
Proof.
  assert (H : 6 <= Z.land 0x16 0x0F <= 11)
    by (change (Z.land 0x16 0x0F) with 6; lia).
  split; [exact H|].
  exact (proj1 (proj2 (proj2 (proj2 (proj2
           (MT8816_X_remap 0x40 0x80 true 0x16))))) H).
Defined.

(** ** The interpreter *)

(** One poll, given what the buffer yields. *)
Lemma process_PS2_ScanCode_get (st : key_flags) (r r' : ring) (scanCode : Z) :
  get_PS2_ScanCode r = Some (scanCode, r') ->
  process_PS2_ScanCode st r
  = Some (fst (interpret_scanCode scanCode st), r',
          snd (interpret_scanCode scanCode st)).
Proof.
  intros H. unfold process_PS2_ScanCode. rewrite H.
  now destruct (interpret_scanCode scanCode st).
Qed.

(** Two polls, given the two bytes the buffer yields. *)
Lemma process_PS2_ScanCodes_two (st : key_flags) (r r1 r2 : ring) (c1 c2 : Z) :
  get_PS2_ScanCode r = Some (c1, r1) ->
  get_PS2_ScanCode r1 = Some (c2, r2) ->
  process_PS2_ScanCodes 2 st r
  = Some (fst (interpret_scanCode c2 (fst (interpret_scanCode c1 st))), r2,
          snd (interpret_scanCode c1 st)
            ++ snd (interpret_scanCode c2 (fst (interpret_scanCode c1 st)))).
Proof.
  intros H1 H2. cbn [process_PS2_ScanCodes].
  rewrite (process_PS2_ScanCode_get _ _ _ _ H1).
  rewrite (process_PS2_ScanCode_get _ _ _ _ H2).
  now rewrite app_nil_r.
Qed.

(** A buffer holding exactly the given bytes, for the examples. *)
Lemma interpret_bytes_example :
  interpret_bytes [0x1C] (mkFlags 0 0)
  = Some (mkFlags 0 0, [(true, Switch_A_a); (true, Switch_A_b)]).
Proof. vm_compute. reflexivity. Qed.

(** ** C5: codes shared by the numeric pad and the navigation keys *)

(** C5.  Scan codes 0x6B and 0x74, whatever the release flag [kr]: with the
    extended flag clear they resolve to the pairs of keys 4 and 6; polled
    right after an extended prefix 0xE0 or 0xE1 (from any flags) they
    resolve to the two LEFT addresses and to the single RIGHT address.  In
    each case the switch state is "close" unless the release flag is set,
    and both flags are clear afterwards. *)
Theorem keypad_or_navigation (kr ex pre : Z) (r r1 r2 : ring) :
  pre = 0xE0 \/ pre = 0xE1 ->
  let press := negb (truthy kr) in
  (get_PS2_ScanCode r1 = Some (0x6B, r2) ->
   process_PS2_ScanCode (mkFlags kr 0) r1
   = Some (mkFlags 0 0, r2, [(press, Switch_4_a); (press, Switch_4_b)]))
  /\ (get_PS2_ScanCode r1 = Some (0x74, r2) ->
      process_PS2_ScanCode (mkFlags kr 0) r1
      = Some (mkFlags 0 0, r2, [(press, Switch_6_a); (press, Switch_6_b)]))
  /\ (get_PS2_ScanCode r = Some (pre, r1) ->
      get_PS2_ScanCode r1 = Some (0x6B, r2) ->
      process_PS2_ScanCodes 2 (mkFlags kr ex) r
      = Some (mkFlags 0 0, r2,
              [(press, Switch_LEFT_a); (press, Switch_LEFT_b)]))
  /\ (get_PS2_ScanCode r = Some (pre, r1) ->
      get_PS2_ScanCode r1 = Some (0x74, r2) ->
      process_PS2_ScanCodes 2 (mkFlags kr ex) r
      = Some (mkFlags 0 0, r2, [(press, Switch_RIGHT)])).
Proof.
  intros Hprefix press. split; [|split; [|split]].
  - intros H. now rewrite (process_PS2_ScanCode_get _ _ _ _ H).
  - intros H. now rewrite (process_PS2_ScanCode_get _ _ _ _ H).
  - intros H1 H2. rewrite (process_PS2_ScanCodes_two _ _ _ _ _ _ H1 H2).
    destruct Hprefix as [-> | ->]; reflexivity.
  - intros H1 H2. rewrite (process_PS2_ScanCodes_two _ _ _ _ _ _ H1 H2).
    destruct Hprefix as [-> | ->]; reflexivity.
Qed.

Lemma keypad_or_navigation_witness :
  let r := mkRing (0xE0 :: 0x6B :: replicate 252 0) 0 2 in
  let r1 := mkRing (0xE0 :: 0x6B :: replicate 252 0) 1 2 in
  let r2 := mkRing (0xE0 :: 0x6B :: replicate 252 0) 2 2 in
  get_PS2_ScanCode r = Some (0xE0, r1)
  /\ get_PS2_ScanCode r1 = Some (0x6B, r2)
  /\ process_PS2_ScanCodes 2 (mkFlags 0 0) r
     = Some (mkFlags 0 0, r2, [(true, Switch_LEFT_a); (true, Switch_LEFT_b)])
  /\ process_PS2_ScanCode (mkFlags 0 0) r1
     = Some (mkFlags 0 0, r2, [(true, Switch_4_a); (true, Switch_4_b)]).
Proof.
  intros r r1 r2.
  assert (H1 : get_PS2_ScanCode r = Some (0xE0, r1)) by reflexivity.
  assert (H2 : get_PS2_ScanCode r1 = Some (0x6B, r2)) by reflexivity.
  split; [exact H1|]. split; [exact H2|].
  pose proof (keypad_or_navigation 0 0 0xE0 r r1 r2 (or_introl eq_refl)) as H.
  split.
  - exact (proj1 (proj2 (proj2 H)) H1 H2).
  - exact (proj1 H H2).
Defined.

(** ** C6: release prefix, then a letter *)

(** C6.  From any flags, the release prefix 0xF0 followed at once by the
    scan code of a letter key issues exactly the two calls that open the
    key's two addresses, in the order a, b, and leaves both flags clear. *)
Theorem release_then_letter (st : key_flags) (r r1 r2 : ring)
    (scanCode addr_a addr_b : Z) :
  In (scanCode, (addr_a, addr_b)) letter_keys ->
  get_PS2_ScanCode r = Some (0xF0, r1) ->
  get_PS2_ScanCode r1 = Some (scanCode, r2) ->
  process_PS2_ScanCodes 2 st r
  = Some (mkFlags 0 0, r2, [(false, addr_a); (false, addr_b)])
  /\ addr_a <> NO_SWITCH_ACTION /\ addr_b <> NO_SWITCH_ACTION.
Proof.
  intros Hin H1 H2. rewrite (process_PS2_ScanCodes_two _ _ _ _ _ _ H1 H2).
  unfold letter_keys in Hin. cbn [In] in Hin.
  repeat (destruct Hin as [Hin|Hin];
          [injection Hin as <- <- <-; repeat split; discriminate|]).
  contradiction.
Qed.

Lemma release_then_letter_witness :
  let r := mkRing (0xF0 :: 0x1C :: replicate 252 0) 0 2 in
  let r1 := mkRing (0xF0 :: 0x1C :: replicate 252 0) 1 2 in
  let r2 := mkRing (0xF0 :: 0x1C :: replicate 252 0) 2 2 in
  In (0x1C, (Switch_A_a, Switch_A_b)) letter_keys
  /\ get_PS2_ScanCode r = Some (0xF0, r1)
  /\ get_PS2_ScanCode r1 = Some (0x1C, r2)
  /\ process_PS2_ScanCodes 2 (mkFlags 0 1) r
     = Some (mkFlags 0 0, r2, [(false, Switch_A_a); (false, Switch_A_b)]).
Proof.
  intros r r1 r2.
  assert (Hin : In (0x1C, (Switch_A_a, Switch_A_b)) letter_keys)
    by (unfold letter_keys; cbn [In]; tauto).
  assert (H1 : get_PS2_ScanCode r = Some (0xF0, r1)) by reflexivity.
  assert (H2 : get_PS2_ScanCode r1 = Some (0x1C, r2)) by reflexivity.
  split; [exact Hin|]. split; [exact H1|]. split; [exact H2|].
  exact (proj1 (release_then_letter (mkFlags 0 1) r r1 r2 0x1C
                  Switch_A_a Switch_A_b Hin H1 H2)).
Defined.

(** ** C4: codes that leave the sticky flags set *)

Lemma key_flags_eqb_eq (s t : key_flags) : key_flags_eqb s t = true -> s = t.
Proof.
  destruct s, t. unfold key_flags_eqb. cbn [key_release extended].
  intros [H1 H2]%andb_true_iff. apply Z.eqb_eq in H1, H2. congruence.
Qed.

(** C4 does not hold of the code.  The nine codes guarded by
    [if (extended == 0)] without [else] are not prefix codes, yet met with
    the extended flag set they issue nothing and leave both flags as they
    are.  The bytes E0 F0 69 (release of the End key) leave both flags set,
    and the make code 1C of key A that follows opens the two switches of A
    instead of closing them.  For every byte and all flag values the code
    can store, the flags after a poll are those of [flags_after]. *)
Theorem extended_guarded_code_keeps_flags :
  Forall (fun c => forall kr,
            interpret_scanCode c (mkFlags kr 1) = (mkFlags kr 1, []))
         extended_guarded_codes
  /\ interpret_bytes [0xE0; 0xF0; 0x69] (mkFlags 0 0)
     = Some (mkFlags 1 1, [])
  /\ interpret_bytes [0xE0; 0xF0; 0x69; 0x1C] (mkFlags 0 0)
     = Some (mkFlags 0 0, [(false, Switch_A_a); (false, Switch_A_b)])
  /\ interpret_bytes [0x1C] (mkFlags 0 0)
     = Some (mkFlags 0 0, [(true, Switch_A_a); (true, Switch_A_b)])
  /\ Forall (fun c =>
       Forall (fun st => fst (interpret_scanCode c st) = flags_after c st)
              reachable_flags)
       (below 256).
Proof.
  split; [|split; [|split; [|split]]].
  - unfold extended_guarded_codes. repeat constructor.
  - vm_compute. reflexivity.
  - vm_compute. reflexivity.
  - vm_compute. reflexivity.
  - assert (H : forallb (fun c =>
                  forallb (fun st =>
                     key_flags_eqb (fst (interpret_scanCode c st))
                                   (flags_after c st))
                    reachable_flags) (below 256) = true)
      by (vm_compute; reflexivity).
    rewrite forallb_forall in H.
    apply List.Forall_forall. intros c Hc. specialize (H c Hc).
    rewrite forallb_forall in H.
    apply List.Forall_forall. intros st Hst.
    apply key_flags_eqb_eq, H, Hst.
Qed.

(** ** C7: the Up+Left diagonal *)





(** ** C8: opens before closes *)

(** Only the low nibble of the snapshot selects the direction case. *)
Lemma direction_calls_nibble (joy : Z) :
  joyLeft_direction_calls joy = joyLeft_direction_calls (Z.land joy 0x0F)
  /\ joyRight_direction_calls joy = joyRight_direction_calls (Z.land joy 0x0F).
Proof.
  unfold joyLeft_direction_calls, joyRight_direction_calls.
  rewrite <- Z.land_assoc. change (Z.land 0x0F 0x0F) with 0x0F. now split.
Qed.

(** In each of the nine direction cases the opens come first. *)
Lemma direction_calls_ordered (joy : Z) :
  opens_before_closes (joyLeft_direction_calls joy) = true
  /\ opens_before_closes (joyRight_direction_calls joy) = true.
Proof.
  destruct (direction_calls_nibble joy) as [-> ->].
  pose proof (nibble_range joy) as Hn. revert Hn.
  generalize (Z.land joy 0x0F). intros n Hn.
  assert (H : forall n, 0 <= n < Z.of_nat 16 ->
    (opens_before_closes (joyLeft_direction_calls n)
     && opens_before_closes (joyRight_direction_calls n)) = true).
  { apply below_forallb. vm_compute. reflexivity. }
  apply andb_true_iff, H. lia.
Qed.

(** C8 as stated fails.  Left joystick, button 1 held ([joyLeft_prev] =
    0x10), the stick goes from none to Up while the button stays down
    ([PORTD.IN] = 0xBB, snapshot 0x11): the first call of the changed poll
    closes Button1, and opens follow it. *)
Lemma button_close_precedes_opens_counterexample :
  readJoystick_Left 0xBB = 0x11
  /\ process_Joystick_Left 0xBB 0x10
     = (0x11,
        [ (true, Switch_JoyL_Button1); (false, Switch_JoyL_Button2);
          (false, Switch_JoyL_Down); (false, Switch_JoyL_Left);
          (false, Switch_JoyL_Right); (false, Switch_JoyL_UpLeft_Extra);
          (false, Switch_JoyL_UpRightDownLeft_Extra);
          (false, Switch_JoyL_DownRight_Extra); (true, Switch_JoyL_Up) ])
  /\ opens_before_closes (snd (process_Joystick_Left 0xBB 0x10)) = false.
Proof. repeat split. Qed.

(** C8, as the code has it.  A changed poll of either sampler issues the
    Button1 call, the Button2 call (each a close when the button is down,
    an open otherwise), then the calls of the direction case, and within
    the direction calls no close precedes an open.  When neither button is
    down, no close precedes an open in the whole sequence.  An unchanged
    poll issues nothing. *)
Theorem direction_opens_before_closes (joy_prev : Z) :
  (forall PORTD_IN,
     let joyLeft := readJoystick_Left PORTD_IN in
     let cs := snd (process_Joystick_Left PORTD_IN joy_prev) in
     (joyLeft = joy_prev -> cs = [])
     /\ (joyLeft <> joy_prev ->
         cs = [ (truthy (Z.land joyLeft 0x10), Switch_JoyL_Button1);
                (truthy (Z.land joyLeft 0x20), Switch_JoyL_Button2) ]
              ++ joyLeft_direction_calls joyLeft
         /\ opens_before_closes (joyLeft_direction_calls joyLeft) = true
         /\ (Z.land joyLeft 0x10 = 0 -> Z.land joyLeft 0x20 = 0 ->
             opens_before_closes cs = true)))
  /\ (forall PORTC_IN PORTD_IN,
        let joyRight := readJoystick_Right PORTC_IN PORTD_IN in
        let cs := snd (process_Joystick_Right PORTC_IN PORTD_IN joy_prev) in
        (joyRight = joy_prev -> cs = [])
        /\ (joyRight <> joy_prev ->
            cs = [ (truthy (Z.land joyRight 0x10), Switch_JoyR_Button1);
                   (truthy (Z.land joyRight 0x20), Switch_JoyR_Button2) ]
                 ++ joyRight_direction_calls joyRight
            /\ opens_before_closes (joyRight_direction_calls joyRight) = true
            /\ (Z.land joyRight 0x10 = 0 -> Z.land joyRight 0x20 = 0 ->
                opens_before_closes cs = true))).
Proof.
  split.
  - intros PORTD_IN joyLeft cs. subst cs. unfold process_Joystick_Left.
    fold joyLeft. destruct (direction_calls_ordered joyLeft) as [Hord _].
    destruct (Z.eqb_spec joyLeft joy_prev) as [Heq|Hne]; cbn [negb snd].
    + split; [reflexivity | intros H; now elim H].
    + split; [intros H; now elim Hne|]. intros _.
      split; [reflexivity|]. split; [exact Hord|].
      intros -> ->. exact Hord.
  - intros PORTC_IN PORTD_IN joyRight cs. subst cs.
    unfold process_Joystick_Right. fold joyRight.
    destruct (direction_calls_ordered joyRight) as [_ Hord].
    destruct (Z.eqb_spec joyRight joy_prev) as [Heq|Hne]; cbn [negb snd].
    + split; [reflexivity | intros H; now elim H].
    + split; [intros H; now elim Hne|]. intros _.
      split; [reflexivity|]. split; [exact Hord|].
      intros -> ->. exact Hord.
Qed.

Lemma direction_opens_before_closes_witness :
  readJoystick_Left 0xBB <> 0x10
  /\ opens_before_closes (joyLeft_direction_calls (readJoystick_Left 0xBB))
     = true
  /\ readJoystick_Left 0xFB <> 0x04
  /\ Z.land (readJoystick_Left 0xFB) 0x10 = 0
  /\ Z.land (readJoystick_Left 0xFB) 0x20 = 0
  /\ opens_before_closes (snd (process_Joystick_Left 0xFB 0x04)) = true.
Proof.
  assert (H1 : readJoystick_Left 0xBB <> 0x10) by discriminate.
  assert (H2 : readJoystick_Left 0xFB <> 0x04) by discriminate.
  split; [exact H1|]. split.
  { exact (proj1 (proj2 (proj2 (proj1 (direction_opens_before_closes 0x10)
                                  0xBB) H1))). }
  split; [exact H2|]. split; [reflexivity|]. split; [reflexivity|].
  exact (proj2 (proj2 (proj2 (proj1 (direction_opens_before_closes 0x04)
                                0xFB) H2)) eq_refl eq_refl).
Defined.

(** * Further properties of the code *)

(** ** The driver on whole addresses, and the reset *)

Lemma low6_range (a : Z) : 0 <= Z.land a 0x3F < 64.
Proof.
  change 0x3F with (Z.ones 6). rewrite Z.land_ones by lia.
  apply Z.mod_pos_bound. reflexivity.
Qed.

(** Only the low six bits of a switch address reach the port. *)
Lemma port_address_low6 (a : Z) :
  port_address a = port_address (Z.land a 0x3F).
Proof.
  unfold port_address. rewrite <- !Z.land_assoc. reflexivity.
Qed.

Lemma port_address_range (a : Z) : 0 <= port_address a < 64.
Proof.
  assert (H : forall x, 0 <= x < Z.of_nat 64 ->
            ((0 <=? port_address x) && (port_address x <? 64)) = true).
  { apply below_forallb. vm_compute. reflexivity. }
  pose proof (low6_range a) as Ha.
  specialize (H (Z.land a 0x3F) ltac:(lia)).
  rewrite <- port_address_low6 in H. lia.
Qed.

(** X1.  The address put on the port is a bijection of the 64 logical
    addresses: [MT8816_Switch] first writes [port_address]; it lies in
    [0, 64); two switch addresses get the same port address exactly when
    their low six bits agree.  Bits 6 and 7 are ignored, so the sentinel
    [NO_SWITCH_ACTION], were it passed, would drive crosspoint X0/Y0. *)
Theorem port_address_bijective (MT_Strobe_bm MT_Data_bm : Z)
    (switchState : bool) (a b : Z) :
  nth 0 (MT8816_Switch MT_Strobe_bm MT_Data_bm switchState a) 0
  = port_address a
  /\ 0 <= port_address a < 64
  /\ (port_address a = port_address b <-> Z.land a 0x3F = Z.land b 0x3F)
  /\ port_address NO_SWITCH_ACTION = port_address 0.
Proof.
  split; [reflexivity|].
  assert (H : forall x, 0 <= x < Z.of_nat 64 ->
            forallb (fun y => (0 <=? port_address x) && (port_address x <? 64)
                              && implb (port_address x =? port_address y)
                                       (x =? y))
                    (below 64) = true).
  { apply (below_forallb 64 (fun x => forallb _ (below 64))).
    vm_compute. reflexivity. }
  pose proof (low6_range a) as Ha. pose proof (low6_range b) as Hb.
  specialize (H (Z.land a 0x3F) ltac:(lia)).
  rewrite forallb_forall in H.
  specialize (H (Z.land b 0x3F) (below_spec 64 (Z.land b 0x3F) ltac:(lia))).
  rewrite <- !port_address_low6 in H.
  apply andb_true_iff in H as [[H1 H2]%andb_true_iff H3].
  split; [lia|]. split; [|reflexivity]. split.
  - intros Heq. apply Z.eqb_eq in Heq. rewrite Heq in H3. now apply Z.eqb_eq.
  - intros Heq. now rewrite (port_address_low6 a), Heq, <- port_address_low6.
Qed.

(** X2.  With the strobe on pin 6 and the data line on pin 7, the port sees:
    the port address alone, the address with the data line at the level of
    [switchState], the same with the strobe raised, then zero. *)
Theorem MT8816_Switch_strobe (MT_Strobe_bm MT_Data_bm : Z)
    (switchState : bool) (a : Z) :
  MT_Strobe_bm = 0x40 -> MT_Data_bm = 0x80 ->
  let level := if switchState then 0x80 else 0 in
  MT8816_Switch MT_Strobe_bm MT_Data_bm switchState a
  = [ port_address a; port_address a + level;
      port_address a + level + 0x40; 0 ]
  /\ 0 <= port_address a < 64.
Proof.
  intros -> -> level. pose proof (port_address_range a) as Hr.
  split; [|exact Hr].
  unfold MT8816_Switch. fold (port_address a).
  revert Hr. generalize (port_address a). intros p Hp. subst level.
  assert (H : forall p, 0 <= p < Z.of_nat 64 ->
     ((OUTSET 0x80 p =? p + 0x80) && (OUTCLR 0x80 p =? p)
      && (OUTSET 0x40 (p + 0x80) =? p + 0x80 + 0x40)
      && (OUTSET 0x40 p =? p + 0x40)) = true).
  { apply below_forallb. vm_compute. reflexivity. }
  specialize (H p ltac:(lia)).
  apply andb_true_iff in H as [[[H1 H2]%andb_true_iff H3]%andb_true_iff H4].
  apply Z.eqb_eq in H1, H2, H3, H4.
  destruct switchState.
  - now rewrite H1, H3.
  - now rewrite H2, H4, Z.add_0_r.
Qed.

Lemma MT8816_Switch_strobe_witness :
  MT8816_Switch 0x40 0x80 true Switch_RIGHT = [0x2F; 0xAF; 0xEF; 0].
Proof.
  exact (proj1 (MT8816_Switch_strobe 0x40 0x80 true Switch_RIGHT
                  eq_refl eq_refl)).
Defined.

(** X3.  [MT8816_Reset] issues 64 calls, all opens, for the switch addresses
    0, 1, ..., 63 in this order, and the port addresses they present are a
    permutation of 0..63: every crosspoint of the array is opened exactly
    once. *)
Theorem MT8816_Reset_opens_all :
  map fst MT8816_Reset = replicate 64 false
  /\ map snd MT8816_Reset = below 64
  /\ Permutation (map (fun c => port_address (snd c)) MT8816_Reset) (below 64).
Proof.
  split; [vm_compute; reflexivity|]. split; [vm_compute; reflexivity|].
  apply (bool_decide_unpack _). vm_compute. exact I.
Qed.

(** ** The interpreter on every byte *)

(** What the [switch] can leave behind, for every integer and all flags:
    the switch values do not depend on the release flag and depend on the
    extended flag only through its truth; either both are the sentinel and
    the flags are unchanged, cleared, or have one flag set to 1, or the
    flags are unchanged, the first value is a matrix address and the second
    is a matrix address or the sentinel. *)
Lemma scanCode_switch_shape (scanCode kr ex : Z) :
  let '(st', a, b) := scanCode_switch scanCode (mkFlags kr ex) in
  let '(_, a0, b0) :=
    scanCode_switch scanCode (mkFlags 0 (Z.b2z (truthy ex))) in
  a = a0 /\ b = b0
  /\ ((a = NO_SWITCH_ACTION /\ b = NO_SWITCH_ACTION
       /\ (st' = mkFlags kr ex \/ st' = mkFlags 0 0
           \/ st' = mkFlags 1 ex \/ st' = mkFlags kr 1))
      \/ (st' = mkFlags kr ex /\ 0 <= a < 64
          /\ (b = NO_SWITCH_ACTION \/ 0 <= b < 64))).
Proof.
  unfold truthy.
  destruct ex as [|q|q];
  (destruct scanCode as [|p|p];
   [ | do 8 (try destruct p as [p|p|]) | ]);
  cbn;
  (split; [reflexivity|]); (split; [reflexivity|]);
  first [ left; split; [reflexivity|]; split; [reflexivity|]; tauto
        | right; split; [reflexivity|];
          split; [cbv; split; [discriminate | reflexivity]|];
          first [ left; reflexivity
                | right; cbv; split; [discriminate | reflexivity] ] ].
Qed.

(** The calls of one poll, from the shape of the [switch]. *)
Lemma interpret_scanCode_shape (scanCode kr ex : Z) :
  let '(st', cs) := interpret_scanCode scanCode (mkFlags kr ex) in
  let '(_, a0, b0) :=
    scanCode_switch scanCode (mkFlags 0 (Z.b2z (truthy ex))) in
  (a0 = NO_SWITCH_ACTION /\ b0 = NO_SWITCH_ACTION /\ cs = []
   /\ (st' = mkFlags kr ex \/ st' = mkFlags 0 0
       \/ st' = mkFlags 1 ex \/ st' = mkFlags kr 1))
  \/ (st' = mkFlags 0 0 /\ 0 <= a0 < 64
      /\ ((b0 = NO_SWITCH_ACTION /\ cs = [(negb (truthy kr), a0)])
          \/ (0 <= b0 < 64
              /\ cs = [(negb (truthy kr), a0); (negb (truthy kr), b0)]))).
Proof.
  pose proof (scanCode_switch_shape scanCode kr ex) as H.
  unfold interpret_scanCode.
  destruct (truthy scanCode) eqn:Hc.
  2:{ unfold truthy in Hc. apply negb_false_iff, Z.eqb_eq in Hc. subst.
      cbn. left. auto. }
  destruct (scanCode_switch scanCode (mkFlags kr ex)) as [[st' a] b].
  destruct (scanCode_switch scanCode (mkFlags 0 _)) as [[st0 a0] b0].
  - destruct H as (-> & -> & [(-> & -> & Hst) | (-> & Ha & Hb)]).
    + cbn. left. split; [reflexivity|]. split; [reflexivity|].
      split; [reflexivity | exact Hst].
    + unfold switch_calls, NO_SWITCH_ACTION in *.
      cbn [key_release].
      destruct (Z.eqb_spec a0 128) as [->|_]; [lia|].
      cbn [negb orb app]. right. split; [reflexivity|]. split; [exact Ha|].
      destruct Hb as [-> | Hb].
      * left. now split.
      * right. destruct (Z.eqb_spec b0 128) as [->|_]; [lia|]. now split.
Qed.

(** X4.  For every byte and all flags, a poll issues at most two calls, first
    for address a and then for address b; every address is inside the
    matrix (so [NO_SWITCH_ACTION] is never passed to the driver); every
    call closes when the release flag was clear and opens when it was set;
    and a poll that issues a call leaves both flags clear. *)
Theorem interpret_calls_in_matrix (scanCode : Z) (st : key_flags) :
  let cs := snd (interpret_scanCode scanCode st) in
  (length cs <= 2)%nat
  /\ Forall call_in_matrix cs
  /\ Forall (fun c => snd c <> NO_SWITCH_ACTION) cs
  /\ Forall (fun c => fst c = negb (truthy (key_release st))) cs
  /\ (cs <> [] -> fst (interpret_scanCode scanCode st) = mkFlags 0 0).
Proof.
  destruct st as [kr ex]. intros cs. subst cs.
  pose proof (interpret_scanCode_shape scanCode kr ex) as H.
  destruct (interpret_scanCode scanCode (mkFlags kr ex)) as [st' cs].
  destruct (scanCode_switch scanCode (mkFlags 0 _)) as [[st0 a0] b0].
  cbn [fst snd key_release]. unfold call_in_matrix, NO_SWITCH_ACTION.
  destruct H as [(_ & _ & -> & _) | (-> & Ha & [(_ & ->) | (Hb & ->)])].
  - repeat split; auto. intros H; now elim H.
  - cbn [length]. repeat split; auto; repeat constructor; cbn [fst snd]; lia.
  - cbn [length]. repeat split; auto; repeat constructor; cbn [fst snd]; lia.
Qed.

Lemma interpret_calls_in_matrix_witness :
  snd (interpret_scanCode 0x74 (mkFlags 1 1)) <> []
  /\ fst (interpret_scanCode 0x74 (mkFlags 1 1)) = mkFlags 0 0.
Proof.
  assert (H : snd (interpret_scanCode 0x74 (mkFlags 1 1)) <> [])
    by discriminate.
  split; [exact H|].
  exact (proj2 (proj2 (proj2 (proj2
           (interpret_calls_in_matrix 0x74 (mkFlags 1 1))))) H).
Defined.

(** The flags never hold anything but 0 and 1: every poll keeps that. *)
Lemma interpret_flags_wf (scanCode : Z) (st : key_flags) :
  flags_wf st -> flags_wf (fst (interpret_scanCode scanCode st)).
Proof.
  destruct st as [kr ex]. intros [Hkr Hex].
  cbn [key_release extended] in Hkr, Hex.
  pose proof (interpret_scanCode_shape scanCode kr ex) as H.
  destruct (interpret_scanCode scanCode (mkFlags kr ex)) as [st' cs].
  destruct (scanCode_switch scanCode (mkFlags 0 _)) as [[st0 a0] b0].
  cbn [fst].
  destruct H as [(_ & _ & _ & [-> | [-> | [-> | ->]]]) | (-> & _)];
    unfold flags_wf; cbn [key_release extended]; auto.
Qed.


(** X5.  Press and release address the same switches: for every byte and
    extended flag, the calls issued with the release flag [kr] are those
    issued with the release flag clear, with the switch state replaced by
    "close unless [kr] is set".  So the sequence F0, code opens exactly
    the addresses that the code alone closes, in the same order. *)
Theorem release_mirrors_press (scanCode kr ex : Z) :
  snd (interpret_scanCode scanCode (mkFlags kr ex))
  = map (fun c => (negb (truthy kr), snd c))
        (snd (interpret_scanCode scanCode (mkFlags 0 ex)))
  /\ Forall (fun c => fst c = true)
            (snd (interpret_scanCode scanCode (mkFlags 0 ex)))
  /\ snd (interpret_scanCode scanCode
            (fst (interpret_scanCode 0xF0 (mkFlags 0 ex))))
     = map (fun c => (false, snd c))
           (snd (interpret_scanCode scanCode (mkFlags 0 ex))).
Proof.
  assert (Hgen : forall k,
    snd (interpret_scanCode scanCode (mkFlags k ex))
    = map (fun c => (negb (truthy k), snd c))
          (snd (interpret_scanCode scanCode (mkFlags 0 ex)))).
  { intros k.
    pose proof (interpret_scanCode_shape scanCode k ex) as H.
    pose proof (interpret_scanCode_shape scanCode 0 ex) as H0.
    destruct (interpret_scanCode scanCode (mkFlags k ex)) as [st1 cs1].
    destruct (interpret_scanCode scanCode (mkFlags 0 ex)) as [st0 cs0].
    destruct (scanCode_switch scanCode (mkFlags 0 _)) as [[st a0] b0].
    cbn [snd]. unfold NO_SWITCH_ACTION in *.
    destruct H as [(Ha & Hb & -> & _) | (_ & Ha & [(Hb & ->) | (Hb & ->)])];
      destruct H0 as [(Ha0 & Hb0 & -> & _)
                     | (_ & Ha0 & [(Hb0 & ->) | (Hb0 & ->)])];
      try reflexivity; lia. }
  split; [apply Hgen|]. split.
  - pose proof (interpret_scanCode_shape scanCode 0 ex) as H.
    destruct (interpret_scanCode scanCode (mkFlags 0 ex)) as [st0 cs0].
    destruct (scanCode_switch scanCode (mkFlags 0 _)) as [[st a0] b0].
    cbn [snd].
    destruct H as [(_ & _ & -> & _) | (_ & _ & [(_ & ->) | (_ & ->)])];
      repeat constructor.
  - change (fst (interpret_scanCode 0xF0 (mkFlags 0 ex))) with (mkFlags 1 ex).
    apply Hgen.
Qed.

(** ** The buffer as a bounded queue, under any interleaving *)

(** X6.  From any well-formed buffer: at most 253 bytes are unread; a push
    succeeds and appends its byte to the unread bytes, dropping the oldest
    one only when 253 were unread; a pop succeeds, changes neither the
    array nor [End], and returns the oldest unread byte and removes it, or
    returns 0 and changes nothing when no byte is unread. *)
Theorem ring_bounded_queue (r : ring) :
  ring_inv r ->
  (length (ring_contents r) <= 253)%nat
  /\ (forall x, exists r',
        PS2_ScanCodeBuffer_add x r = Some r' /\ ring_inv r'
        /\ ring_contents r'
           = (if decide (length (ring_contents r) = 253%nat)
              then drop 1 (ring_contents r) else ring_contents r) ++ [x])
  /\ (exists v r',
        get_PS2_ScanCode r = Some (v, r') /\ ring_inv r'
        /\ PS2_ScanCodeBuffer r' = PS2_ScanCodeBuffer r
        /\ PS2_ScanCodeBuffer_End r' = PS2_ScanCodeBuffer_End r
        /\ match ring_contents r with
           | [] => v = 0 /\ r' = r
           | x :: q => v = x /\ ring_contents r' = q
           end).
Proof.
  intros Hr. split; [|split].
  - rewrite ring_contents_length. pose proof (ring_count_range r).
    unfold PS2_ScanCodeBuffer_Size in *. lia.
  - intros x. apply (add_contents x r Hr).
  - destruct (get_contents r Hr) as [[Hnil Hget]|(v & r' & Hget & Hr' & Hc)].
    + exists 0, r. rewrite Hnil. split; [exact Hget|]. split; [exact Hr|].
      auto.
    + exists v, r'. rewrite Hc. split; [exact Hget|]. split; [exact Hr'|].
      unfold get_PS2_ScanCode in Hget.
      destruct (_ =? _); [injection Hget as _ <-; auto|].
      destruct (array_read _ _); [|discriminate].
      injection Hget as _ <-. auto.
Qed.

Lemma ring_bounded_queue_witness :
  ring_inv ring_init /\ (length (ring_contents ring_init) <= 253)%nat.
Proof.
  split; [exact ring_init_inv|].
  exact (proj1 (ring_bounded_queue ring_init ring_init_inv)).
Defined.

(** ** The decoder over any run of edges *)

Lemma add_bytes (x : Z) (r r' : ring) :
  0 <= x < 256 -> ring_bytes r ->
  PS2_ScanCodeBuffer_add x r = Some r' -> ring_bytes r'.
Proof.
  intros Hx Hb Hadd. unfold PS2_ScanCodeBuffer_add, array_write in Hadd.
  destruct (_ && _); [|discriminate]. injection Hadd as <-.
  unfold ring_bytes. cbn [PS2_ScanCodeBuffer].
  apply Forall_insert; assumption.
Qed.

(** One edge from a decoder inside a frame. *)
Lemma PS2_Interrupt_decoder_inv (m x : Z) (f : ps2_frame) (r : ring) :
  decoder_inv f -> ring_inv r -> ring_bytes r ->
  exists f' r',
    PS2_Interrupt m x (f, r) = Some (f', r')
    /\ decoder_inv f' /\ ring_inv r' /\ ring_bytes r'
    /\ bitCount f' = (bitCount f + 1) mod 11
    /\ (bitCount f <> 10 -> r' = r).
Proof.
  intros (Hbc & Hpc & Hd) Hr Hb. destruct f as [sb d pc st n].
  cbn [bitCount parityCount data] in *.
  assert (Hn : n = 0 \/ 1 <= n <= 8 \/ n = 9 \/ n = 10) by lia.
  destruct Hn as [-> | [Hn | [-> | ->]]].
  - rewrite PS2_Interrupt_start. eexists _, r. split; [reflexivity|].
    split; [unfold decoder_inv; cbn [bitCount parityCount data]; lia|].
    split; [exact Hr|]. split; [exact Hb|]. split; [reflexivity|].
    intros _. reflexivity.
  - rewrite PS2_Interrupt_data by lia. eexists _, r. split; [reflexivity|].
    split.
    { unfold decoder_inv. cbn [bitCount parityCount data].
      destruct (observed m x); cbn [Z.b2z];
        repeat split; try lia; Z.div_mod_to_equations; lia. }
    split; [exact Hr|]. split; [exact Hb|].
    split; [cbn [bitCount]; rewrite Z.mod_small; lia|].
    intros _. reflexivity.
  - rewrite PS2_Interrupt_parity by lia. eexists _, r. split; [reflexivity|].
    split.
    { unfold decoder_inv. cbn [bitCount parityCount data].
      destruct (observed m x); cbn [Z.b2z]; lia. }
    split; [exact Hr|]. split; [exact Hb|]. split; [reflexivity|].
    intros _. reflexivity.
  - rewrite PS2_Interrupt_stop.
    assert (Hinv' : forall sb' st', decoder_inv (mkFrame sb' d 0 st' 0))
      by (intros; unfold decoder_inv; cbn; lia).
    destruct (_ && _).
    + destruct (add_inv d r Hr) as (r' & Hadd & Hr'). rewrite Hadd.
      eexists _, r'. split; [reflexivity|]. split; [apply Hinv'|].
      split; [exact Hr'|]. split; [exact (add_bytes d r r' Hd Hb Hadd)|].
      split; [reflexivity | intros H; now elim H].
    + eexists _, r. split; [reflexivity|]. split; [apply Hinv'|].
      split; [exact Hr|]. split; [exact Hb|]. split; [reflexivity|].
      intros _. reflexivity.
Qed.

(** X7.  For every run of clock edges from a decoder inside a frame and a
    well-formed buffer of bytes: the handler has a result; the bit counter
    stays in 0..10, the parity counter never exceeds it and the data
    register stays a byte, so no [uint8_t] counter wraps; the bit counter
    afterwards is the one before plus the number of edges, modulo 11, so
    frames are cut by counting edges alone; the buffer is untouched as long
    as the frame is not complete; and the next pop returns a byte. *)
Theorem PS2_Interrupts_decoder_inv (m : Z) (samples : list Z)
    (f : ps2_frame) (r : ring) :
  decoder_inv f -> ring_inv r -> ring_bytes r ->
  exists f' r',
    PS2_Interrupts m samples (f, r) = Some (f', r')
    /\ decoder_inv f' /\ ring_inv r' /\ ring_bytes r'
    /\ bitCount f' = (bitCount f + Z.of_nat (length samples)) mod 11
    /\ (bitCount f + Z.of_nat (length samples) <= 10 -> r' = r)
    /\ exists v r'', get_PS2_ScanCode r' = Some (v, r'') /\ 0 <= v < 256.
Proof.
  revert f r. induction samples as [|x samples IH]; intros f r Hf Hr Hb.
  - exists f, r. cbn [PS2_Interrupts length]. split; [reflexivity|].
    split; [exact Hf|]. split; [exact Hr|]. split; [exact Hb|].
    destruct Hf as (Hbc & _). split; [rewrite Z.add_0_r, Z.mod_small; lia|].
    split; [reflexivity|].
    destruct (get_inv r Hr) as (v & r'' & Hget & _). exists v, r''.
    split; [exact Hget|]. unfold get_PS2_ScanCode, array_read in Hget.
    destruct (_ =? _); [injection Hget as <- _; lia|].
    destruct (0 <=? _); [|discriminate].
    destruct (_ !! _) as [w|] eqn:Hw; [|discriminate].
    injection Hget as <- _. unfold ring_bytes in Hb.
    rewrite List.Forall_forall in Hb. apply Hb.
    apply list_elem_of_In. eapply list_elem_of_lookup_2. exact Hw.
  - destruct (PS2_Interrupt_decoder_inv m x f r Hf Hr Hb)
      as (f1 & r1 & Hstep & Hf1 & Hr1 & Hb1 & Hbc1 & Hsame).
    destruct (IH f1 r1 Hf1 Hr1 Hb1)
      as (f' & r' & Hrun & Hf' & Hr' & Hb' & Hbc' & Hsame' & Hpop).
    exists f', r'. cbn [PS2_Interrupts length]. rewrite Hstep.
    split; [exact Hrun|]. split; [exact Hf'|]. split; [exact Hr'|].
    split; [exact Hb'|]. destruct Hf as (Hbc & _). split.
    + rewrite Hbc', Hbc1, Nat2Z.inj_succ, Z.add_mod_idemp_l by lia.
      f_equal. lia.
    + split; [|exact Hpop]. intros Hle.
      rewrite Hsame', Hsame; [reflexivity | lia |].
      rewrite Hbc1, Z.mod_small; lia.
Qed.

Lemma PS2_Interrupts_decoder_inv_witness :
  decoder_inv (mkFrame 0 0 0 0 0) /\ ring_inv ring_init
  /\ ring_bytes ring_init
  /\ exists f' r',
       PS2_Interrupts 2 [0; 2; 2; 0; 2] (mkFrame 0 0 0 0 0, ring_init)
       = Some (f', r')
       /\ bitCount f' = 5 /\ r' = ring_init.
Proof.
  assert (Hf : decoder_inv (mkFrame 0 0 0 0 0))
    by (unfold decoder_inv; cbn; lia).
  assert (Hb : ring_bytes ring_init)
    by (unfold ring_bytes, ring_init; cbn [PS2_ScanCodeBuffer];
        apply Forall_replicate; lia).
  split; [exact Hf|]. split; [exact ring_init_inv|]. split; [exact Hb|].
  destruct (PS2_Interrupts_decoder_inv 2 [0; 2; 2; 0; 2] (mkFrame 0 0 0 0 0)
              ring_init Hf ring_init_inv Hb)
    as (f' & r' & Hrun & _ & _ & _ & Hbc & Hsame & _).
  exists f', r'. split; [exact Hrun|]. split; [exact Hbc|].
  apply Hsame. cbn. lia.
Defined.

(** ** A stream of frames *)

(** Frames sent one after the other are queued one after the other. *)
Lemma PS2_stream_contents (m lo hi : Z) (bytes : list Z) :
  observed m lo = false -> observed m hi = true ->
  Forall (fun b => 0 <= b < 256) bytes ->
  forall f r, frame_start f -> ring_inv r ->
  exists f' r',
    PS2_Interrupts m (concat (map (ps2_encode lo hi) bytes)) (f, r)
    = Some (f', r')
    /\ frame_start f' /\ ring_inv r'
    /\ ring_contents r'
       = fold_left (fun q x => queue_add x q) bytes (ring_contents r).
Proof.
  intros Hlo Hhi Hbytes.
  induction Hbytes as [|b bytes Hb _ IH]; intros f r Hf Hr.
  - exists f, r. cbn. auto.
  - cbn [map concat fold_left]. rewrite PS2_Interrupts_app.
    destruct (PS2_encode_run m lo hi b f r Hf Hr Hlo Hhi Hb)
      as (f1 & r1 & -> & Hf1 & Hr1 & <-).
    apply IH; assumption.
Qed.

(** X8.  Decoder and buffer together carry a stream of bytes unharmed.  From
    the decoder at rest and an empty buffer, after the frames of any bytes
    sent one after the other, as many pops as bytes were kept return the
    last 253 bytes sent, in order, and leave the buffer empty; if at most
    253 bytes were sent, the pops return exactly the bytes sent. *)
Theorem PS2_stream_round_trip (m lo hi : Z) (bytes : list Z)
    (f : ps2_frame) (r : ring) :
  observed m lo = false -> observed m hi = true ->
  Forall (fun b => 0 <= b < 256) bytes ->
  frame_start f -> ring_inv r -> ring_empty r ->
  exists f' r',
    PS2_Interrupts m (concat (map (ps2_encode lo hi) bytes)) (f, r)
    = Some (f', r')
    /\ frame_start f'
    /\ (exists r'',
          gets (length (drop (length bytes - 253) bytes)) r'
          = Some (drop (length bytes - 253) bytes, r'')
          /\ ring_empty r'')
    /\ ((length bytes <= 253)%nat ->
        exists r'', gets (length bytes) r' = Some (bytes, r'')
                    /\ ring_empty r'').
Proof.
  intros Hlo Hhi Hbytes Hf Hr He.
  destruct (PS2_stream_contents m lo hi bytes Hlo Hhi Hbytes f r Hf Hr)
    as (f' & r' & Hrun & Hf' & Hr' & Hc).
  apply ring_empty_contents in He; [|assumption].
  rewrite He, queue_adds_nil in Hc. unfold ring_capacity in Hc.
  destruct (gets_contents (length (ring_contents r')) r' Hr')
    as (r'' & Hgets & Hr'' & Hc''); [reflexivity|].
  rewrite firstn_all in Hgets. rewrite drop_all in Hc''. rewrite Hc in Hgets.
  apply ring_empty_contents in Hc''; [|assumption].
  exists f', r'. split; [exact Hrun|]. split; [exact Hf'|]. split.
  - now exists r''.
  - intros Hlen. exists r''.
    replace (length bytes - 253)%nat with 0%nat in Hgets by lia.
    now rewrite drop_0 in Hgets.
Qed.

Lemma PS2_stream_round_trip_witness :
  observed 2 0 = false /\ observed 2 2 = true
  /\ Forall (fun b => 0 <= b < 256) [0xE0; 0xF0; 0x6B]
  /\ exists f' r' r'',
       PS2_Interrupts 2 (concat (map (ps2_encode 0 2) [0xE0; 0xF0; 0x6B]))
         (mkFrame 0 0 0 0 0, ring_init) = Some (f', r')
       /\ gets 3 r' = Some ([0xE0; 0xF0; 0x6B], r'').
Proof.
  assert (Hb : Forall (fun b => 0 <= b < 256) [0xE0; 0xF0; 0x6B])
    by (repeat constructor; lia).
  assert (Hf : frame_start (mkFrame 0 0 0 0 0))
    by (unfold frame_start; cbn; lia).
  split; [reflexivity|]. split; [reflexivity|]. split; [exact Hb|].
  destruct (PS2_stream_round_trip 2 0 2 [0xE0; 0xF0; 0x6B]
              (mkFrame 0 0 0 0 0) ring_init eq_refl eq_refl Hb Hf
              ring_init_inv eq_refl)
    as (f' & r' & Hrun & _ & _ & Hall).
  destruct Hall as (r'' & Hgets & _); [cbn; lia|].
  exists f', r', r''. split; [exact Hrun | exact Hgets].
Defined.

(** ** Reading the joystick pins *)

(** X10.  The pins are active low and each sampler reads its own pins only.  For
    8-bit port values: the left snapshot has bit [i] (Up, Down, Left,
    Right, Button 1, Button 2) set exactly when pin [i + 2] of [PORTD] is
    low; the right snapshot has bits 0-3 set exactly when pins 0-3 of
    [PORTC] are low and bits 4-5 set exactly when pins 0-1 of [PORTD] are
    low; both snapshots lie in [0, 64). *)
Theorem readJoystick_active_low (PORTC_IN PORTD_IN : Z) :
  0 <= PORTC_IN < 256 -> 0 <= PORTD_IN < 256 ->
  let joyLeft := readJoystick_Left PORTD_IN in
  let joyRight := readJoystick_Right PORTC_IN PORTD_IN in
  0 <= joyLeft < 64 /\ 0 <= joyRight < 64
  /\ (forall i, 0 <= i < 6 ->
        Z.testbit joyLeft i = negb (Z.testbit PORTD_IN (i + 2)))
  /\ (forall i, 0 <= i < 4 ->
        Z.testbit joyRight i = negb (Z.testbit PORTC_IN i))
  /\ (forall i, 0 <= i < 2 ->
        Z.testbit joyRight (i + 4) = negb (Z.testbit PORTD_IN i)).
Proof.
  intros Hc Hd joyLeft joyRight. subst joyLeft joyRight.
  assert (HL : forall d, 0 <= d < Z.of_nat 256 ->
    ((0 <=? readJoystick_Left d) && (readJoystick_Left d <? 64)
     && forallb (fun i => Bool.eqb (Z.testbit (readJoystick_Left d) i)
                                   (negb (Z.testbit d (i + 2))))
                (below 6)) = true).
  { apply below_forallb. vm_compute. reflexivity. }
  assert (HR : forall c, 0 <= c < Z.of_nat 256 ->
    forallb (fun d =>
      (0 <=? readJoystick_Right c d) && (readJoystick_Right c d <? 64)
      && forallb (fun i => Bool.eqb (Z.testbit (readJoystick_Right c d) i)
                                    (negb (Z.testbit c i))) (below 4)
      && forallb (fun i => Bool.eqb (Z.testbit (readJoystick_Right c d) (i + 4))
                                    (negb (Z.testbit d i))) (below 2))
      (below 256) = true).
  { apply (below_forallb 256 (fun c => forallb _ (below 256))).
    vm_compute. reflexivity. }
  specialize (HL PORTD_IN ltac:(lia)).
  specialize (HR PORTC_IN ltac:(lia)). rewrite forallb_forall in HR.
  specialize (HR PORTD_IN (below_spec 256 PORTD_IN ltac:(lia))).
  apply andb_true_iff in HL as [[HL1 HL2]%andb_true_iff HL3].
  apply andb_true_iff in HR as [[[HR1 HR2]%andb_true_iff HR3]%andb_true_iff HR4].
  rewrite forallb_forall in HL3, HR3, HR4.
  split; [lia|]. split; [lia|]. split; [|split].
  - intros i Hi. apply eqb_prop, HL3, below_spec. lia.
  - intros i Hi. apply eqb_prop, HR3, below_spec. lia.
  - intros i Hi. apply eqb_prop, HR4, below_spec. lia.
Qed.

Lemma readJoystick_active_low_witness :
  0 <= 0xF5 < 256 /\ 0 <= 0xEB < 256
  /\ 0 <= readJoystick_Left 0xEB < 64
  /\ 0 <= readJoystick_Right 0xF5 0xEB < 64.
Proof.
  assert (Hc : 0 <= 0xF5 < 256) by lia.
  assert (Hd : 0 <= 0xEB < 256) by lia.
  split; [exact Hc|]. split; [exact Hd|].
  destruct (readJoystick_active_low 0xF5 0xEB Hc Hd) as (H1 & H2 & _).
  split; [exact H1 | exact H2].
Defined.

(** ** The samplers on every snapshot *)

Lemma testbit_nibble (joy i : Z) :
  0 <= i < 4 -> Z.testbit joy i = Z.testbit (Z.land joy 0x0F) i.
Proof.
  intros Hi. rewrite Z.land_spec.
  assert (H : Z.testbit 0x0F i = true).
  { assert (Hc : i = 0 \/ i = 1 \/ i = 2 \/ i = 3) by lia.
    destruct Hc as [-> | [-> | [-> | ->]]]; reflexivity. }
  now rewrite H, andb_true_r.
Qed.

Lemma existsb_nat_In (n : nat) (l : list nat) :
  existsb (Nat.eqb n) l = true -> In n l.
Proof.
  intros (k & Hk & Heq)%existsb_exists. apply Nat.eqb_eq in Heq. now subst.
Qed.

(** X11.  Both samplers decode the four direction lines alike.  For the eight
    snapshots that name a direction, Up, Down, Left and Right are closed
    exactly when their line is active, and one diagonal crosspoint is
    closed with a diagonal; for every other combination of lines (none,
    or opposite lines together) nothing is closed.  Hence Up and Down are
    never closed by the same poll, nor Left and Right, and a poll closes
    zero, one or three direction crosspoints. *)
Theorem joystick_direction_decode (joy : Z) :
  let csL := joyLeft_direction_calls joy in
  let csR := joyRight_direction_calls joy in
  (direction_valid joy = false -> closes csL = [] /\ closes csR = [])
  /\ (direction_valid joy = true ->
      closed_by csL Switch_JoyL_Up = Z.testbit joy 0
      /\ closed_by csL Switch_JoyL_Down = Z.testbit joy 1
      /\ closed_by csL Switch_JoyL_Left = Z.testbit joy 2
      /\ closed_by csL Switch_JoyL_Right = Z.testbit joy 3
      /\ closed_by csR Switch_JoyR_Up = Z.testbit joy 0
      /\ closed_by csR Switch_JoyR_Down = Z.testbit joy 1
      /\ closed_by csR Switch_JoyR_Left = Z.testbit joy 2
      /\ closed_by csR Switch_JoyR_Right = Z.testbit joy 3)
  /\ closed_by csL Switch_JoyL_Up && closed_by csL Switch_JoyL_Down = false
  /\ closed_by csL Switch_JoyL_Left && closed_by csL Switch_JoyL_Right = false
  /\ closed_by csR Switch_JoyR_Up && closed_by csR Switch_JoyR_Down = false
  /\ closed_by csR Switch_JoyR_Left && closed_by csR Switch_JoyR_Right = false
  /\ In (length (closes csL)) [0; 1; 3]%nat
  /\ In (length (closes csR)) [0; 1; 3]%nat.
Proof.
  intros csL csR. subst csL csR.
  destruct (direction_calls_nibble joy) as [-> ->].
  rewrite !(testbit_nibble joy) by lia.
  assert (Hv : direction_valid joy = direction_valid (Z.land joy 0x0F)).
  { unfold direction_valid. rewrite <- Z.land_assoc. reflexivity. }
  rewrite Hv. clear Hv.
  pose proof (nibble_range joy) as Hn. revert Hn.
  generalize (Z.land joy 0x0F). intros n Hn.
  assert (H : forall n, 0 <= n < Z.of_nat 16 ->
    (let csL := joyLeft_direction_calls n in
     let csR := joyRight_direction_calls n in
     let same x y := Bool.eqb x y in
     (if direction_valid n
      then same (closed_by csL Switch_JoyL_Up) (Z.testbit n 0)
           && same (closed_by csL Switch_JoyL_Down) (Z.testbit n 1)
           && same (closed_by csL Switch_JoyL_Left) (Z.testbit n 2)
           && same (closed_by csL Switch_JoyL_Right) (Z.testbit n 3)
           && same (closed_by csR Switch_JoyR_Up) (Z.testbit n 0)
           && same (closed_by csR Switch_JoyR_Down) (Z.testbit n 1)
           && same (closed_by csR Switch_JoyR_Left) (Z.testbit n 2)
           && same (closed_by csR Switch_JoyR_Right) (Z.testbit n 3)
      else (length (closes csL) =? 0)%nat && (length (closes csR) =? 0)%nat)
     && negb (closed_by csL Switch_JoyL_Up && closed_by csL Switch_JoyL_Down)
     && negb (closed_by csL Switch_JoyL_Left && closed_by csL Switch_JoyL_Right)
     && negb (closed_by csR Switch_JoyR_Up && closed_by csR Switch_JoyR_Down)
     && negb (closed_by csR Switch_JoyR_Left && closed_by csR Switch_JoyR_Right)
     && existsb (Nat.eqb (length (closes csL))) [0; 1; 3]%nat
     && existsb (Nat.eqb (length (closes csR))) [0; 1; 3]%nat) = true).
  { apply below_forallb. vm_compute. reflexivity. }
  specialize (H n ltac:(lia)). cbv zeta in H.
  repeat (apply andb_true_iff in H as [H ?]).
  repeat match goal with
         | Hx : negb _ = true |- _ => apply negb_true_iff in Hx
         | Hx : existsb _ _ = true |- _ => apply existsb_nat_In in Hx
         end.
  split; [|split; [|repeat split; assumption]].
  - intros Hf. rewrite Hf in H.
    apply andb_true_iff in H as [HL HR]. apply Nat.eqb_eq in HL, HR.
    split; now apply length_zero_iff_nil.
  - intros Ht. rewrite Ht in H.
    repeat (apply andb_true_iff in H as [H ?]).
    repeat split; now apply eqb_prop.
Qed.

Lemma joystick_direction_decode_witness :
  direction_valid 0x03 = false
  /\ closes (joyLeft_direction_calls 0x03) = []
  /\ direction_valid 0x09 = true
  /\ closed_by (joyRight_direction_calls 0x09) Switch_JoyR_Right
     = Z.testbit 0x09 3.
Proof.
  pose proof (joystick_direction_decode 0x03) as (H3 & _).
  pose proof (joystick_direction_decode 0x09) as (_ & H9 & _).
  split; [reflexivity|]. split; [exact (proj1 (H3 eq_refl))|].
  split; [reflexivity|].
  exact (proj2 (proj2 (proj2 (proj2 (proj2 (proj2 (proj2 (H9 eq_refl)))))))).
Defined.

(** X12.  A changed poll refreshes the whole joystick: its calls address each
    of the joystick's nine crosspoints exactly once (the two buttons, then
    the seven direction crosspoints in the order of the case), so what the
    poll leaves open and closed depends on the new snapshot alone; and
    every address is inside the matrix. *)
Theorem joystick_poll_refreshes_all (joy_prev : Z) :
  (forall PORTD_IN,
     readJoystick_Left PORTD_IN <> joy_prev ->
     let cs := snd (process_Joystick_Left PORTD_IN joy_prev) in
     Permutation (map snd cs) JoyL_switches
     /\ Forall call_in_matrix cs
     /\ fst (process_Joystick_Left PORTD_IN joy_prev)
        = readJoystick_Left PORTD_IN)
  /\ (forall PORTC_IN PORTD_IN,
        readJoystick_Right PORTC_IN PORTD_IN <> joy_prev ->
        let cs := snd (process_Joystick_Right PORTC_IN PORTD_IN joy_prev) in
        Permutation (map snd cs) JoyR_switches
        /\ Forall call_in_matrix cs
        /\ fst (process_Joystick_Right PORTC_IN PORTD_IN joy_prev)
           = readJoystick_Right PORTC_IN PORTD_IN).
Proof.
  assert (H : forall joy,
    Permutation (map snd (joyLeft_direction_calls joy)) (drop 2 JoyL_switches)
    /\ Permutation (map snd (joyRight_direction_calls joy))
                   (drop 2 JoyR_switches)).
  { intros joy. destruct (direction_calls_nibble joy) as [-> ->].
    pose proof (nibble_range joy) as Hn. revert Hn.
    generalize (Z.land joy 0x0F). intros n Hn.
    assert (Hb : forall n, 0 <= n < Z.of_nat 16 ->
      (bool_decide (Permutation (map snd (joyLeft_direction_calls n))
                                (drop 2 JoyL_switches))
       && bool_decide (Permutation (map snd (joyRight_direction_calls n))
                                   (drop 2 JoyR_switches))) = true).
    { apply below_forallb. vm_compute. reflexivity. }
    specialize (Hb n ltac:(lia)). apply andb_true_iff in Hb as [H1 H2].
    apply bool_decide_eq_true in H1, H2. now split. }
  assert (Hm : forall cs l, Permutation (map snd cs) l ->
                 Forall (fun a => 0 <= a < 64) l -> Forall call_in_matrix cs).
  { intros cs l Hp Hl. rewrite <- Hp in Hl.
    apply List.Forall_map in Hl. exact Hl. }
  split.
  - intros PORTD_IN Hne cs. subst cs. unfold process_Joystick_Left.
    destruct (Z.eqb_spec (readJoystick_Left PORTD_IN) joy_prev);
      [contradiction|]. cbn [negb fst snd].
    assert (Hp : Permutation
              (map snd ([ (truthy (Z.land (readJoystick_Left PORTD_IN) 0x10),
                           Switch_JoyL_Button1) ]
                        ++ [ (truthy (Z.land (readJoystick_Left PORTD_IN) 0x20),
                              Switch_JoyL_Button2) ]
                        ++ joyLeft_direction_calls (readJoystick_Left PORTD_IN)))
              JoyL_switches).
    { cbn [map app snd]. do 2 apply perm_skip. apply H. }
    split; [exact Hp|]. split; [|reflexivity].
    apply (Hm _ _ Hp). unfold JoyL_switches.
    repeat constructor; discriminate.
  - intros PORTC_IN PORTD_IN Hne cs. subst cs. unfold process_Joystick_Right.
    destruct (Z.eqb_spec (readJoystick_Right PORTC_IN PORTD_IN) joy_prev);
      [contradiction|]. cbn [negb fst snd].
    assert (Hp : Permutation
              (map snd ([ (truthy (Z.land (readJoystick_Right PORTC_IN PORTD_IN) 0x10),
                           Switch_JoyR_Button1) ]
                        ++ [ (truthy (Z.land (readJoystick_Right PORTC_IN PORTD_IN) 0x20),
                              Switch_JoyR_Button2) ]
                        ++ joyRight_direction_calls
                             (readJoystick_Right PORTC_IN PORTD_IN)))
              JoyR_switches).
    { cbn [map app snd]. do 2 apply perm_skip. apply H. }
    split; [exact Hp|]. split; [|reflexivity].
    apply (Hm _ _ Hp). unfold JoyR_switches.
    repeat constructor; discriminate.
Qed.

Lemma joystick_poll_refreshes_all_witness :
  readJoystick_Left 0xEB <> 0
  /\ Permutation (map snd (snd (process_Joystick_Left 0xEB 0))) JoyL_switches.
Proof.
  assert (H : readJoystick_Left 0xEB <> 0) by discriminate.
  split; [exact H|].
  exact (proj1 (proj1 (joystick_poll_refreshes_all 0) 0xEB H)).
Defined.

(** ** The main loop and the running system *)

Lemma interpret_scanCode_in_matrix (scanCode : Z) (st : key_flags) :
  Forall call_in_matrix (snd (interpret_scanCode scanCode st)).
Proof.
  destruct st as [kr ex].
  pose proof (interpret_scanCode_shape scanCode kr ex) as H.
  destruct (interpret_scanCode scanCode (mkFlags kr ex)) as [st' cs].
  destruct (scanCode_switch scanCode (mkFlags 0 _)) as [[st0 a0] b0].
  cbn [snd]. unfold call_in_matrix.
  destruct H as [(_ & _ & -> & _) | (_ & Ha & [(_ & ->) | (Hb & ->)])];
    repeat constructor; cbn [snd]; lia.
Qed.

Lemma process_Joystick_in_matrix (PORTC_IN PORTD_IN joy_prev : Z) :
  Forall call_in_matrix (snd (process_Joystick_Left PORTD_IN joy_prev))
  /\ Forall call_in_matrix
       (snd (process_Joystick_Right PORTC_IN PORTD_IN joy_prev)).
Proof.
  assert (H : forall joy,
    Forall call_in_matrix (joyLeft_direction_calls joy)
    /\ Forall call_in_matrix (joyRight_direction_calls joy)).
  { intros joy. destruct (direction_calls_nibble joy) as [-> ->].
    pose proof (nibble_range joy) as Hn. revert Hn.
    generalize (Z.land joy 0x0F). intros n Hn.
    assert (Hb : forall n, 0 <= n < Z.of_nat 16 ->
      forallb (fun c => (0 <=? snd c) && (snd c <? 64))
              (joyLeft_direction_calls n ++ joyRight_direction_calls n)
      = true).
    { apply below_forallb. vm_compute. reflexivity. }
    specialize (Hb n ltac:(lia)). rewrite forallb_app in Hb.
    apply andb_true_iff in Hb as [H1 H2]. rewrite forallb_forall in H1, H2.
    split; apply List.Forall_forall; intros c Hc; unfold call_in_matrix;
      [specialize (H1 c Hc) | specialize (H2 c Hc)]; lia. }
  unfold process_Joystick_Left, process_Joystick_Right.
  split; destruct (negb _); cbn [snd app]; try constructor;
    try (unfold call_in_matrix; cbn [snd]; cbv; split;
         [discriminate | reflexivity]);
    (constructor;
     [unfold call_in_matrix; cbn [snd]; cbv; split;
      [discriminate | reflexivity] | apply H]).
Qed.

(** One poll of the interpreter on a well-formed buffer of bytes. *)
Lemma process_PS2_ScanCode_step (st : key_flags) (r : ring) :
  ring_inv r ->
  exists st' r' cs,
    process_PS2_ScanCode st r = Some (st', r', cs)
    /\ ring_inv r'
    /\ PS2_ScanCodeBuffer r' = PS2_ScanCodeBuffer r
    /\ ring_contents r' = drop 1 (ring_contents r)
    /\ Forall call_in_matrix cs
    /\ (flags_wf st -> flags_wf st')
    /\ (ring_empty r -> st' = st /\ r' = r /\ cs = []).
Proof.
  intros Hr. unfold process_PS2_ScanCode.
  destruct (get_contents r Hr) as [[Hnil Hget]|(v & r' & Hget & Hr' & Hc)].
  - rewrite Hget. exists st, r, []. cbn [interpret_scanCode truthy Z.eqb negb].
    rewrite Hnil. split; [reflexivity|]. split; [exact Hr|].
    split; [reflexivity|]. split; [reflexivity|]. split; [constructor|].
    split; auto.
  - rewrite Hget. pose proof (interpret_scanCode_in_matrix v st) as Hm.
    pose proof (interpret_flags_wf v st) as Hw.
    destruct (interpret_scanCode v st) as [st' cs]. cbn [fst snd] in *.
    exists st', r', cs. split; [reflexivity|]. split; [exact Hr'|].
    split.
    { unfold get_PS2_ScanCode in Hget. destruct (_ =? _).
      - now injection Hget as _ <-.
      - destruct (array_read _ _); [|discriminate].
        now injection Hget as _ <-. }
    split; [now rewrite Hc|]. split; [exact Hm|]. split; [exact Hw|].
    intros He. apply ring_empty_contents in He; [|assumption]. congruence.
Qed.

(** X14.  One turn of the main loop on a well-formed buffer always completes.
    It consumes the oldest unread byte, if there is one, and no other; it
    stores the two snapshots it read; all its calls are inside the matrix.
    When both snapshots equal the stored ones and no byte is unread, it
    issues no call and changes nothing. *)
Theorem main_loop_turn (PORTD_IN_1 PORTC_IN PORTD_IN_2 : Z) (s : controller) :
  ring_inv (scan_ring s) ->
  exists s' cs,
    main_loop_body PORTD_IN_1 PORTC_IN PORTD_IN_2 s = Some (s', cs)
    /\ ring_inv (scan_ring s')
    /\ ring_contents (scan_ring s') = drop 1 (ring_contents (scan_ring s))
    /\ joyLeft_prev s' = readJoystick_Left PORTD_IN_1
    /\ joyRight_prev s' = readJoystick_Right PORTC_IN PORTD_IN_2
    /\ Forall call_in_matrix cs
    /\ (readJoystick_Left PORTD_IN_1 = joyLeft_prev s ->
        readJoystick_Right PORTC_IN PORTD_IN_2 = joyRight_prev s ->
        ring_empty (scan_ring s) ->
        s' = s /\ cs = []).
Proof.
  intros Hr. unfold main_loop_body.
  destruct (process_Joystick_in_matrix PORTC_IN PORTD_IN_1 (joyLeft_prev s))
    as [HmL _].
  destruct (process_Joystick_in_matrix PORTC_IN PORTD_IN_2 (joyRight_prev s))
    as [_ HmR].
  assert (HL : fst (process_Joystick_Left PORTD_IN_1 (joyLeft_prev s))
               = readJoystick_Left PORTD_IN_1
               /\ (readJoystick_Left PORTD_IN_1 = joyLeft_prev s ->
                   snd (process_Joystick_Left PORTD_IN_1 (joyLeft_prev s)) = [])).
  { unfold process_Joystick_Left.
    destruct (Z.eqb_spec (readJoystick_Left PORTD_IN_1) (joyLeft_prev s))
      as [Heq|Hne]; cbn [negb fst snd]; split; auto.
    intros H. now elim Hne. }
  assert (HR : fst (process_Joystick_Right PORTC_IN PORTD_IN_2 (joyRight_prev s))
               = readJoystick_Right PORTC_IN PORTD_IN_2
               /\ (readJoystick_Right PORTC_IN PORTD_IN_2 = joyRight_prev s ->
                   snd (process_Joystick_Right PORTC_IN PORTD_IN_2
                          (joyRight_prev s)) = [])).
  { unfold process_Joystick_Right.
    destruct (Z.eqb_spec (readJoystick_Right PORTC_IN PORTD_IN_2)
                (joyRight_prev s))
      as [Heq|Hne]; cbn [negb fst snd]; split; auto.
    intros H. now elim Hne. }
  destruct (process_Joystick_Left _ _) as [jl cs1].
  destruct (process_Joystick_Right _ _ _) as [jr cs2].
  cbn [fst snd] in *. destruct HL as [-> HL]. destruct HR as [-> HR].
  destruct (process_PS2_ScanCode_step (flags s) (scan_ring s) Hr)
    as (st' & r' & cs3 & -> & Hr' & _ & Hc & Hm & _ & Hidle).
  eexists _, _. split; [reflexivity|].
  cbn [scan_ring joyLeft_prev joyRight_prev].
  split; [exact Hr'|]. split; [exact Hc|]. split; [reflexivity|].
  split; [reflexivity|]. split.
  - apply Forall_app. split; [exact HmL|]. apply Forall_app. now split.
  - intros H1 H2 He. destruct (Hidle He) as (-> & -> & ->).
    rewrite (HL H1), (HR H2), H1, H2. destruct s. now split.
Qed.

Lemma main_loop_turn_witness :
  ring_inv (scan_ring controller_init)
  /\ main_loop_body 0xFF 0xFF 0xFF controller_init
     = Some (controller_init, []).
Proof.
  split; [exact ring_init_inv|].
  destruct (main_loop_turn 0xFF 0xFF 0xFF controller_init ring_init_inv)
    as (s' & cs & Hrun & _ & _ & _ & _ & _ & Hidle).
  destruct Hidle as [-> ->]; [reflexivity | reflexivity | reflexivity |].
  exact Hrun.
Defined.

Lemma system_init_inv : system_inv (mkFrame 0 0 0 0 0, controller_init).
Proof.
  unfold system_inv. cbn [fst snd scan_ring flags controller_init].
  split; [unfold decoder_inv; cbn; lia|]. split; [exact ring_init_inv|].
  split.
  - unfold ring_bytes, ring_init. cbn [PS2_ScanCodeBuffer].
    apply Forall_replicate. lia.
  - unfold flags_wf. cbn. auto.
Qed.

(** X15.  Whatever clock edges arrive and whatever the pins read, in any order
    of edges and loop turns: from a state in which the decoder is inside a
    frame, the buffer is well formed and holds bytes, and the flags are 0
    or 1 (the state at start-up is one), the firmware never reads or
    writes outside the buffer, stays in such a state, and every call it
    makes to the driver addresses a crosspoint of the matrix, never the
    sentinel. *)
Theorem run_safe (PS2_Data_bm : Z) (evs : list event)
    (s : ps2_frame * controller) :
  system_inv s ->
  exists s' cs,
    run PS2_Data_bm evs s = Some (s', cs)
    /\ system_inv s'
    /\ Forall call_in_matrix cs
    /\ Forall (fun c => snd c <> NO_SWITCH_ACTION) cs.
Proof.
  assert (Hno : forall cs, Forall call_in_matrix cs ->
                  Forall (fun c => snd c <> NO_SWITCH_ACTION) cs).
  { intros cs Hcs. eapply Forall_impl; [exact Hcs|].
    intros c Hc. unfold call_in_matrix in Hc. unfold NO_SWITCH_ACTION. lia. }
  revert s. induction evs as [|ev evs IH]; intros [f c] Hs.
  - exists (f, c), []. cbn [run]. split; [reflexivity|].
    split; [exact Hs|]. split; constructor.
  - destruct Hs as (Hf & Hr & Hb & Hw). cbn [fst snd] in *.
    assert (Hstep : exists s1 cs1,
      match ev with
      | Edge x =>
          match PS2_Interrupt PS2_Data_bm x (f, scan_ring c) with
          | None => None
          | Some (f, r) =>
              Some (f, mkController (joyLeft_prev c) (joyRight_prev c)
                         (flags c) r, [])
          end
      | Turn d1 pc d2 =>
          match main_loop_body d1 pc d2 c with
          | None => None
          | Some (c, cs) => Some (f, c, cs)
          end
      end = Some (s1, cs1)
      /\ system_inv s1 /\ Forall call_in_matrix cs1).
    { destruct ev as [x | d1 pc d2].
      - destruct (PS2_Interrupt_decoder_inv PS2_Data_bm x f (scan_ring c)
                    Hf Hr Hb)
          as (f1 & r1 & -> & Hf1 & Hr1 & Hb1 & _).
        eexists _, _. split; [reflexivity|]. split; [|constructor].
        unfold system_inv. cbn [fst snd scan_ring flags]. auto.
      - unfold main_loop_body.
        destruct (process_Joystick_in_matrix pc d1 (joyLeft_prev c))
          as [HmL _].
        destruct (process_Joystick_in_matrix pc d2 (joyRight_prev c))
          as [_ HmR].
        destruct (process_Joystick_Left _ _) as [jl cs1].
        destruct (process_Joystick_Right _ _ _) as [jr cs2].
        cbn [snd] in HmL, HmR.
        destruct (process_PS2_ScanCode_step (flags c) (scan_ring c) Hr)
          as (st' & r' & cs3 & -> & Hr' & Hbuf & _ & Hm & Hw' & _).
        eexists _, _. split; [reflexivity|]. split.
        + unfold system_inv, ring_bytes in *.
          cbn [fst snd scan_ring flags]. rewrite Hbuf. auto.
        + apply Forall_app. split; [exact HmL|]. apply Forall_app.
          now split. }
    destruct Hstep as (s1 & cs1 & Hstep & Hs1 & Hm1).
    destruct (IH s1 Hs1) as (s' & cs' & Hrun & Hs' & Hm' & _).
    exists s', (cs1 ++ cs'). cbn [run]. rewrite Hstep, Hrun.
    split; [reflexivity|]. split; [exact Hs'|].
    assert (Hall : Forall call_in_matrix (cs1 ++ cs'))
      by (apply Forall_app; now split).
    split; [exact Hall | now apply Hno].
Qed.

Lemma run_safe_witness :
  system_inv (mkFrame 0 0 0 0 0, controller_init)
  /\ exists s' cs,
       run 2 (map Edge (ps2_encode 0 2 0x1C) ++ [Turn 0xEB 0xFF 0xFF])
         (mkFrame 0 0 0 0 0, controller_init) = Some (s', cs)
       /\ Forall call_in_matrix cs.
Proof.
  split; [exact system_init_inv|].
  destruct (run_safe 2 (map Edge (ps2_encode 0 2 0x1C) ++ [Turn 0xEB 0xFF 0xFF])
              (mkFrame 0 0 0 0 0, controller_init) system_init_inv)
    as (s' & cs & Hrun & _ & Hm & _).
  exists s', cs. split; [exact Hrun | exact Hm].
Defined.

Lemma run_app (m : Z) (evs1 evs2 : list event) (s : ps2_frame * controller) :
  run m (evs1 ++ evs2) s
  = match run m evs1 s with
    | None => None
    | Some (s1, cs1) =>
        match run m evs2 s1 with
        | None => None
        | Some (s2, cs2) => Some (s2, cs1 ++ cs2)
        end
    end.
Proof.
  revert s. induction evs1 as [|ev evs1 IH]; intros [f c]; cbn [run app].
  - now destruct (run m evs2 (f, c)) as [[s2 cs2]|].
  - match goal with
    | |- context [match ?step with Some _ => _ | None => _ end] =>
        destruct step as [[s1 cs1]|] eqn:Hstep
    end; [|reflexivity].
    rewrite IH. destruct (run m evs1 s1) as [[s1' cs1']|]; [|reflexivity].
    destruct (run m evs2 s1') as [[s2 cs2]|]; [|reflexivity].
    now rewrite app_assoc.
Qed.

(** Clock edges alone act on decoder and buffer as [PS2_Interrupts] does
    and issue no call. *)
Lemma run_edges (m : Z) (xs : list Z) (f : ps2_frame) (c : controller) :
  run m (map Edge xs) (f, c)
  = match PS2_Interrupts m xs (f, scan_ring c) with
    | None => None
    | Some (f', r') =>
        Some (f', mkController (joyLeft_prev c) (joyRight_prev c)
                    (flags c) r', [])
    end.
Proof.
  revert f c. induction xs as [|x xs IH]; intros f c;
    cbn [map run PS2_Interrupts].
  - now destruct c.
  - destruct (PS2_Interrupt m x (f, scan_ring c)) as [[f1 r1]|];
      [|reflexivity].
    rewrite IH. cbn [scan_ring joyLeft_prev joyRight_prev flags].
    now destruct (PS2_Interrupts m xs (f1, r1)) as [[f' r']|].
Qed.

(** X16.  A key event from wire to driver.  With the decoder at rest and no
    unread byte, the frame of a byte followed by one turn of the loop in
    which the joysticks read as before issues exactly the calls of
    [interpret_scanCode] for that byte under the current flags, stores the
    flags it leaves, and leaves the decoder at rest and the buffer empty
    again. *)
Theorem key_event_end_to_end (m lo hi b d1 pc d2 : Z) (f : ps2_frame)
    (c : controller) :
  observed m lo = false -> observed m hi = true -> 0 <= b < 256 ->
  frame_start f -> ring_inv (scan_ring c) -> ring_empty (scan_ring c) ->
  readJoystick_Left d1 = joyLeft_prev c ->
  readJoystick_Right pc d2 = joyRight_prev c ->
  exists f' c',
    run m (map Edge (ps2_encode lo hi b) ++ [Turn d1 pc d2]) (f, c)
    = Some (f', c', snd (interpret_scanCode b (flags c)))
    /\ flags c' = fst (interpret_scanCode b (flags c))
    /\ frame_start f' /\ ring_empty (scan_ring c')
    /\ joyLeft_prev c' = joyLeft_prev c
    /\ joyRight_prev c' = joyRight_prev c.
Proof.
  intros Hlo Hhi Hb Hf Hr He HL HR.
  destruct (PS2_encode_run m lo hi b f (scan_ring c) Hf Hr Hlo Hhi Hb)
    as (f' & r' & Hrun & Hf' & Hr' & Hc).
  apply ring_empty_contents in He; [|assumption].
  rewrite He in Hc. change (queue_add b []) with [b] in Hc.
  destruct (get_contents r' Hr') as [[Hnil _]|(v & r'' & Hget & Hr'' & Hc')];
    [congruence|].
  rewrite Hc in Hc'. injection Hc' as <- Hc'. symmetry in Hc'.
  apply ring_empty_contents in Hc'; [|assumption].
  rewrite run_app, run_edges, Hrun. cbn [run]. unfold main_loop_body.
  cbn [scan_ring joyLeft_prev joyRight_prev flags].
  unfold process_Joystick_Left, process_Joystick_Right, process_PS2_ScanCode.
  rewrite HL, HR, !Z.eqb_refl, Hget. cbn [negb].
  destruct (interpret_scanCode b (flags c)) as [st' cs].
  cbn [app fst snd]. eexists _, _. rewrite app_nil_r.
  split; [reflexivity|]. cbn [flags scan_ring joyLeft_prev joyRight_prev].
  auto.
Qed.

Lemma key_event_end_to_end_witness :
  exists f' c',
    run 2 (map Edge (ps2_encode 0 2 0x1C) ++ [Turn 0xFF 0xFF 0xFF])
      (mkFrame 0 0 0 0 0, controller_init)
    = Some (f', c', [(true, Switch_A_a); (true, Switch_A_b)]).
Proof.
  destruct (key_event_end_to_end 2 0 2 0x1C 0xFF 0xFF 0xFF
              (mkFrame 0 0 0 0 0) controller_init)
    as (f' & c' & Hrun & _);
    try reflexivity; try lia; try exact ring_init_inv.
  - unfold frame_start. cbn. lia.
  - exists f', c'. exact Hrun.
Defined.

(** ** Crosspoints shared by a joystick and the keyboard *)

(** The first, the second, or a later call of a poll. *)
Ltac pick_call :=
  cbn [In];
  first [ left; reflexivity | right; left; reflexivity
        | do 2 right; assumption ].

Lemma existsb_Z_In (a : Z) (l : list Z) :
  existsb (Z.eqb a) l = true -> In a l.
Proof.
  intros (k & Hk & Heq)%existsb_exists. apply Z.eqb_eq in Heq. now subst.
Qed.

Lemma opens_In (a : Z) (cs : list call) : In a (opens cs) -> In (false, a) cs.
Proof.
  unfold opens. intros ([b x] & Hx & Hin)%in_map_iff. cbn [snd] in Hx. subst x.
  apply list_elem_of_In, list_elem_of_filter in Hin as [Hb Hin].
  cbn [fst] in Hb. subst b. now apply list_elem_of_In.
Qed.

(** X13.  Button 1, Button 2, Up and Right of the left joystick are the
    crosspoints of the keys CNT'L, SHIFT and 1 (both switches); those of
    the right joystick are the crosspoints of RIGHT, "-" and SPACE (both
    switches).  Every changed poll of a sampler therefore issues a call for
    each of these key crosspoints; when the snapshot has no button, Up or
    Right line active, it opens all four, whatever the keyboard had
    closed. *)
Theorem joystick_poll_rewrites_key_switches (joy_prev : Z) :
  (forall PORTD_IN,
     let joy := readJoystick_Left PORTD_IN in
     let cs := snd (process_Joystick_Left PORTD_IN joy_prev) in
     joy <> joy_prev ->
     Forall (fun a => In a (map snd cs))
            [Switch_CNTL; Switch_SHIFT; Switch_1_a; Switch_1_b]
     /\ (Z.land joy 0x39 = 0 ->
         Forall (fun a => In (false, a) cs)
                [Switch_CNTL; Switch_SHIFT; Switch_1_a; Switch_1_b]))
  /\ (forall PORTC_IN PORTD_IN,
        let joy := readJoystick_Right PORTC_IN PORTD_IN in
        let cs := snd (process_Joystick_Right PORTC_IN PORTD_IN joy_prev) in
        joy <> joy_prev ->
        Forall (fun a => In a (map snd cs))
               [Switch_RIGHT; Switch_MINUS; Switch_SPACE_a; Switch_SPACE_b]
        /\ (Z.land joy 0x39 = 0 ->
            Forall (fun a => In (false, a) cs)
                   [Switch_RIGHT; Switch_MINUS; Switch_SPACE_a;
                    Switch_SPACE_b])).
Proof.
  assert (Hdir : forall joy,
    (In Switch_1_a (map snd (joyLeft_direction_calls joy))
     /\ In Switch_1_b (map snd (joyLeft_direction_calls joy))
     /\ In Switch_SPACE_a (map snd (joyRight_direction_calls joy))
     /\ In Switch_SPACE_b (map snd (joyRight_direction_calls joy)))
    /\ (Z.land joy 0x39 = 0 ->
        In (false, Switch_1_a) (joyLeft_direction_calls joy)
        /\ In (false, Switch_1_b) (joyLeft_direction_calls joy)
        /\ In (false, Switch_SPACE_a) (joyRight_direction_calls joy)
        /\ In (false, Switch_SPACE_b) (joyRight_direction_calls joy))).
  { intros joy.
    assert (Hb : forall n, 0 <= n < Z.of_nat 16 ->
      (existsb (Z.eqb Switch_1_a) (map snd (joyLeft_direction_calls n))
       && existsb (Z.eqb Switch_1_b) (map snd (joyLeft_direction_calls n))
       && existsb (Z.eqb Switch_SPACE_a) (map snd (joyRight_direction_calls n))
       && existsb (Z.eqb Switch_SPACE_b) (map snd (joyRight_direction_calls n))
       && (negb (Z.land n 0x09 =? 0)
           || (existsb (Z.eqb Switch_1_a) (opens (joyLeft_direction_calls n))
               && existsb (Z.eqb Switch_1_b)
                    (opens (joyLeft_direction_calls n))
               && existsb (Z.eqb Switch_SPACE_a)
                    (opens (joyRight_direction_calls n))
               && existsb (Z.eqb Switch_SPACE_b)
                    (opens (joyRight_direction_calls n))))) = true).
    { apply below_forallb. vm_compute. reflexivity. }
    assert (H9 : Z.land joy 0x39 = 0 -> Z.land (Z.land joy 0x0F) 0x09 = 0).
    { intros H. rewrite <- Z.land_assoc. change (Z.land 0x0F 0x09) with 0x09.
      change 0x09 with (Z.land 0x39 0x09). now rewrite Z.land_assoc, H. }
    destruct (direction_calls_nibble joy) as [-> ->].
    pose proof (nibble_range joy) as Hn. revert Hn H9.
    generalize (Z.land joy 0x0F). intros n Hn H9.
    specialize (Hb n ltac:(lia)).
    apply andb_true_iff in Hb as [[[[H1 H2]%andb_true_iff H3]%andb_true_iff
                                      H4]%andb_true_iff H5].
    split; [auto using existsb_Z_In|].
    intros H. rewrite (H9 H) in H5. cbn [Z.eqb negb orb] in H5.
    apply andb_true_iff in H5 as [[[O1 O2]%andb_true_iff O3]%andb_true_iff O4].
    auto 6 using existsb_Z_In, opens_In. }
  assert (Hbtn : forall joy, Z.land joy 0x39 = 0 ->
            truthy (Z.land joy 0x10) = false /\ truthy (Z.land joy 0x20) = false).
  { intros joy H. split.
    - change 0x10 with (Z.land 0x39 0x10). now rewrite Z.land_assoc, H.
    - change 0x20 with (Z.land 0x39 0x20). now rewrite Z.land_assoc, H. }
  split.
  - intros PORTD_IN joy cs Hne. subst cs. unfold process_Joystick_Left.
    fold joy. destruct (Z.eqb_spec joy joy_prev); [contradiction|].
    cbn [negb snd app map].
    destruct (Hdir joy) as ((Ha & Hb & _) & Ho). split.
    + repeat (apply List.Forall_cons; [pick_call|]). constructor.
    + intros H. destruct (Ho H) as (Oa & Ob & _).
      destruct (Hbtn joy H) as [-> ->].
      repeat (apply List.Forall_cons; [pick_call|]). constructor.
  - intros PORTC_IN PORTD_IN joy cs Hne. subst cs.
    unfold process_Joystick_Right. fold joy.
    destruct (Z.eqb_spec joy joy_prev); [contradiction|].
    cbn [negb snd app map].
    destruct (Hdir joy) as ((_ & _ & Ha & Hb) & Ho). split.
    + repeat (apply List.Forall_cons; [pick_call|]). constructor.
    + intros H. destruct (Ho H) as (_ & _ & Oa & Ob).
      destruct (Hbtn joy H) as [-> ->].
      repeat (apply List.Forall_cons; [pick_call|]). constructor.
Qed.

Lemma joystick_poll_rewrites_key_switches_witness :
  readJoystick_Left 0xF7 <> 0
  /\ Z.land (readJoystick_Left 0xF7) 0x39 = 0
  /\ In (false, Switch_1_a) (snd (process_Joystick_Left 0xF7 0)).
Proof.
  assert (H : readJoystick_Left 0xF7 <> 0) by discriminate.
  assert (H0 : Z.land (readJoystick_Left 0xF7) 0x39 = 0) by reflexivity.
  split; [exact H|]. split; [exact H0|].
  pose proof (proj2 (proj1 (joystick_poll_rewrites_key_switches 0) 0xF7 H) H0)
    as HF.
  rewrite List.Forall_forall in HF. apply HF. cbn [In]. auto.
Defined.

(** ** Framing is never recovered *)

(** A well-formed frame met one edge late is rejected: the decoder, having
    already taken one edge of the current frame, takes the start level as
    data, the last data level as parity and the parity level as stop, and
    the parity level is 1 exactly when the count it closes is even.  The
    stop level of the frame is then taken as the start of the next one. *)
Lemma PS2_frame_one_late (m lo hi b sb d st : Z) (r : ring) :
  observed m lo = false -> observed m hi = true -> 0 <= d < 256 ->
  exists sb' d' st',
    PS2_Interrupts m (ps2_encode lo hi b) (mkFrame sb d 0 st 1, r)
    = Some (mkFrame sb' d' 0 st' 1, r)
    /\ 0 <= d' < 256.
Proof.
  intros Hlo Hhi Hd. unfold ps2_encode.
  assert (Hl : forall t : bool, observed m (if t then hi else lo) = t)
    by (intros []; assumption).
  assert (Hbits : exists t0 t1 t2 t3 t4 t5 t6 t7,
            byte_bits b = [t0; t1; t2; t3; t4; t5; t6; t7])
    by (unfold byte_bits; cbn [seq map]; eauto 10).
  destruct Hbits as (t0 & t1 & t2 & t3 & t4 & t5 & t6 & t7 & ->).
  cbn [map app].
  match goal with
  | |- context [PS2_Interrupts m
                  (?a :: ?a0 :: ?a1 :: ?a2 :: ?a3 :: ?a4 :: ?a5 :: ?a6 :: ?tl)
                  ?s] =>
      change (PS2_Interrupts m
                (a :: a0 :: a1 :: a2 :: a3 :: a4 :: a5 :: a6 :: tl) s)
        with (PS2_Interrupts m ([a; a0; a1; a2; a3; a4; a5; a6] ++ tl) s)
  end.
  rewrite PS2_Interrupts_app, PS2_Interrupts_data by (cbn [length]; lia).
  cbn [length map]. rewrite !Hl, Hlo. change (1 + Z.of_nat 8) with 9.
  pose proof (popcount_le [false; t0; t1; t2; t3; t4; t5; t6]) as Hpop.
  cbn [length] in Hpop.
  pose proof (shift_in_range [false; t0; t1; t2; t3; t4; t5; t6] d Hd)
    as Hrange.
  cbn [PS2_Interrupts]. rewrite PS2_Interrupt_parity by lia.
  rewrite PS2_Interrupt_stop, !Hl.
  match goal with
  | |- context [if ?c then PS2_ScanCodeBuffer_add _ _ else _] =>
      assert (Hc : c = false)
  end.
  { destruct t0, t1, t2, t3, t4, t5, t6, t7;
      first [ reflexivity | apply andb_false_r ]. }
  rewrite Hc. rewrite PS2_Interrupt_start. eexists _, _, _.
  split; [reflexivity | exact Hrange].
Qed.

(** X9.  One edge too many and the decoder never accepts a frame again.  From
    the decoder at rest, after a single extra edge of any level, the frames
    of any bytes sent one after the other are all rejected: the buffer is
    left exactly as it was, and the decoder remains one edge ahead. *)
Theorem PS2_extra_edge_loses_all_frames (m lo hi x : Z) (bytes : list Z)
    (f : ps2_frame) (r : ring) :
  observed m lo = false -> observed m hi = true -> frame_start f ->
  exists f',
    PS2_Interrupts m (x :: concat (map (ps2_encode lo hi) bytes)) (f, r)
    = Some (f', r)
    /\ bitCount f' = 1.
Proof.
  intros Hlo Hhi (Hbc & Hpc & Hd). destruct f as [sb d pc st bc].
  cbn [bitCount parityCount data] in *. subst bc pc.
  cbn [PS2_Interrupts]. rewrite PS2_Interrupt_start.
  generalize (u8 (Z.land x m)). clear sb x. intros sb.
  revert sb d st Hd. induction bytes as [|b bytes IH]; intros sb d st Hd.
  - cbn. eexists. split; reflexivity.
  - cbn [map concat]. rewrite PS2_Interrupts_app.
    destruct (PS2_frame_one_late m lo hi b sb d st r Hlo Hhi Hd)
      as (sb' & d' & st' & -> & Hd').
    apply IH. exact Hd'.
Qed.

Lemma PS2_extra_edge_loses_all_frames_witness :
  observed 2 0 = false /\ observed 2 2 = true
  /\ frame_start (mkFrame 0 0 0 0 0)
  /\ exists f',
       PS2_Interrupts 2 (2 :: concat (map (ps2_encode 0 2) [0x1C; 0xF0; 0x1C]))
         (mkFrame 0 0 0 0 0, ring_init) = Some (f', ring_init).
Proof.
  assert (Hf : frame_start (mkFrame 0 0 0 0 0))
    by (unfold frame_start; cbn; lia).
  split; [reflexivity|]. split; [reflexivity|]. split; [exact Hf|].
  destruct (PS2_extra_edge_loses_all_frames 2 0 2 2 [0x1C; 0xF0; 0x1C]
              (mkFrame 0 0 0 0 0) ring_init eq_refl eq_refl Hf)
    as (f' & Hrun & _).
  exists f'. exact Hrun.
Defined.
